(** * A model of the QQ-to-Claude bridge: [bridge/claude_adapter.py] and
      [bridge/main.py]

    The development embeds the session manager ([ClaudeAdapter]) and the
    webhook coordinator ([BridgeService.handle_incoming_event]) as Rocq
    functions and states their properties.

    Conventions of the embedding.
    - Time is an integer count of milliseconds ([Z]); the source's
      [time.time()] floats are read as exact instants.  The only calls that
      let time pass are the blocking ones: [select.select],
      [Popen.wait(timeout=3)], [Event.wait(interval)] and
      [Thread.join(timeout=2)].  Operations run one at a time, so the time
      a thread would spend waiting for a lock another thread holds does not
      show; what happens while the registry lock is held does, in the log.
    - A Python [str] is a list of code points, a [bytes] a list of [byte].
    - A child process is a record of what the environment decides about it
      (when it exits on its own, when it closes its stdin, how it reacts to
      SIGTERM, how long SIGKILL takes to remove it, which bytes reach its
      stdout at which instant) together with what the adapter did to it.
    - The adapter's mutable fields are one record threaded through a small
      state-and-exception monad; the registry lock appears as acquire and
      release events in a log kept in that record.  The registry is a
      finite map together with the order in which its keys were inserted,
      the order in which Python iterates over a [dict].
    - Loops that the source writes as [while] take a fuel argument; running
      out of fuel is the outcome [Diverged] (or [None]), never a result. *)

From stdpp Require Import gmap list strings.
From Stdlib Require Import ZArith Lia.
From Stdlib.Strings Require Import Byte.

Local Open Scope Z_scope.

(** ** Python strings *)

Module PyStr.

(** A [str] value: its code points, in order. *)
Abbreviation str := (list N).

(** A literal of the source, written as a Rocq string. *)
Definition lit (s : string) : str := map Byte.to_N (String.list_byte_of_string s).

(** [str.isspace] on one code point (CPython's [_PyUnicode_IsWhitespace]). *)
Definition isspace (c : N) : bool :=
  ((9 <=? c) && (c <=? 13) || (28 <=? c) && (c <=? 32)
   || (c =? 0x85) || (c =? 0xA0) || (c =? 0x1680)
   || (0x2000 <=? c) && (c <=? 0x200A)
   || (c =? 0x2028) || (c =? 0x2029) || (c =? 0x202F)
   || (c =? 0x205F) || (c =? 0x3000))%N.

Fixpoint lstrip (s : str) : str :=
  match s with
  | c :: s' => if isspace c then lstrip s' else s
  | [] => []
  end.

Definition rstrip (s : str) : str := reverse (lstrip (reverse s)).

(** [s.strip()] with no argument. *)
Definition strip (s : str) : str := rstrip (lstrip s).

(** [''.join(chunks)]. *)
Definition join (chunks : list str) : str := concat chunks.

(** Truthiness of a [str]: non-empty. *)
Definition truthy (s : str) : bool :=
  match s with [] => false | _ :: _ => true end.

(** The replacement character U+FFFD. *)
Definition replacement : N := 0xFFFD%N.

Definition is_cont (b : byte) : bool :=
  ((0x80 <=? Byte.to_N b) && (Byte.to_N b <=? 0xBF))%N.

Definition low6 (b : byte) : N := (Byte.to_N b - 0x80)%N.

(** The range allowed for the second byte of a three-byte sequence. *)
Definition second_of_3 (x0 : N) (b1 : byte) : bool :=
  let x1 := Byte.to_N b1 in
  (if x0 =? 0xE0 then (0xA0 <=? x1) && (x1 <=? 0xBF)
   else if x0 =? 0xED then (0x80 <=? x1) && (x1 <=? 0x9F)
   else (0x80 <=? x1) && (x1 <=? 0xBF))%N.

(** The range allowed for the second byte of a four-byte sequence. *)
Definition second_of_4 (x0 : N) (b1 : byte) : bool :=
  let x1 := Byte.to_N b1 in
  (if x0 =? 0xF0 then (0x90 <=? x1) && (x1 <=? 0xBF)
   else if x0 =? 0xF4 then (0x80 <=? x1) && (x1 <=? 0x8F)
   else (0x80 <=? x1) && (x1 <=? 0xBF))%N.

(** [raw.decode("utf-8", errors="replace")]: every maximal ill-formed
    prefix becomes one U+FFFD and decoding resumes at the offending byte. *)
Fixpoint decode (bs : list byte) : str :=
  match bs with
  | [] => []
  | b0 :: r0 =>
    let x0 := Byte.to_N b0 in
    if (x0 <? 0x80)%N then x0 :: decode r0
    else if ((0xC2 <=? x0) && (x0 <=? 0xDF))%N then
      match r0 with
      | [] => [replacement]
      | b1 :: r1 =>
        if is_cont b1 then ((x0 - 0xC0) * 64 + low6 b1)%N :: decode r1
        else replacement :: decode r0
      end
    else if ((0xE0 <=? x0) && (x0 <=? 0xEF))%N then
      match r0 with
      | [] => [replacement]
      | b1 :: r1 =>
        if second_of_3 x0 b1 then
          match r1 with
          | [] => [replacement]
          | b2 :: r2 =>
            if is_cont b2
            then ((x0 - 0xE0) * 4096 + low6 b1 * 64 + low6 b2)%N :: decode r2
            else replacement :: decode r1
          end
        else replacement :: decode r0
      end
    else if ((0xF0 <=? x0) && (x0 <=? 0xF4))%N then
      match r0 with
      | [] => [replacement]
      | b1 :: r1 =>
        if second_of_4 x0 b1 then
          match r1 with
          | [] => [replacement]
          | b2 :: r2 =>
            if is_cont b2 then
              match r2 with
              | [] => [replacement]
              | b3 :: r3 =>
                if is_cont b3
                then ((x0 - 0xF0) * 262144 + low6 b1 * 4096
                      + low6 b2 * 64 + low6 b3)%N :: decode r3
                else replacement :: decode r2
              end
            else replacement :: decode r1
          end
        else replacement :: decode r0
      end
    else replacement :: decode r0
  end.

(** The bytes of an ASCII literal, as the child would write them. *)
Definition bytes_of (s : string) : list byte := String.list_byte_of_string s.

End PyStr.

Import PyStr.

(** ** The child's stdout pipe and the two system calls on it *)

Module Pipe.

(** The bytes not yet read, oldest first, each with the instant at which it
    reaches the pipe.  A byte is readable once it and every byte before it
    have arrived. *)
Abbreviation pipe := (list (Z * byte)).

(** The child writes [data] at instant [t]. *)
Definition emit (t : Z) (data : list byte) : pipe := map (pair t) data.

(** The longest prefix that has arrived by instant [t]. *)
Fixpoint arrived (t : Z) (out : pipe) : pipe :=
  match out with
  | (a, b) :: out' => if a <=? t then (a, b) :: arrived t out' else []
  | [] => []
  end.

(** [select.select([fd], [], [], timeout)] called at instant [t], on a pipe
    whose write end closes at [eof] (if ever): the descriptor is ready as
    soon as a byte or the end of file can be read.  Returns whether it is
    ready and the instant at which the call returns. *)
Definition select (t timeout : Z) (out : pipe) (eof : option Z) : bool * Z :=
  let next := match out with (a, _) :: _ => Some a | [] => eof end in
  match next with
  | Some a => if a <? t + timeout then (true, Z.max t a) else (false, t + timeout)
  | None => (false, t + timeout)
  end.

(** [os.read(fd, n)] at instant [t], called when [select] reported the
    descriptor ready: at most [n] of the bytes that have arrived; the empty
    result is the end of file. *)
Definition os_read (t : Z) (n : nat) (out : pipe) : list byte * pipe :=
  let got := take n (arrived t out) in
  (map snd got, drop (length got) out).

End Pipe.

Import Pipe.

(** ** The Response Reader: [ClaudeAdapter._read_response] *)

Module Reader.

(** [quiet_window_seconds = 0.6], the two poll intervals and the floor of
    the outer poll's timeout, in milliseconds. *)
Definition quiet_window : Z := 600.
Definition quiet_poll : Z := 100.
Definition outer_poll : Z := 250.
Definition min_remaining : Z := 50.
Definition read_size : nat := 4096.

(** Why the outer loop was left. *)
Inductive stop := StopGap | StopEOF | StopDeadline.

(** How the quiet-window loop was left: by its [break] on a zero-length
    read, or by its condition [time.time() < quiet_deadline] failing. *)
Inductive quiet_exit := QuietEOF | QuietElapsed.

(** The loop of lines 117-124.  [quiet_deadline] is computed once by the
    caller (line 116) and is a constant of the loop. *)
Fixpoint quiet_loop (fuel : nat) (quiet_deadline : Z) (eof : option Z)
    (chunks : list str) (t : Z) (out : pipe)
    : option (list str * Z * pipe * quiet_exit) :=
  match fuel with
  | O => None
  | S fuel' =>
    if t <? quiet_deadline then
      let '(ready, t1) := select t quiet_poll out eof in
      if ready then
        let '(extra_raw, out1) := os_read t1 read_size out in
        match extra_raw with
        | [] => Some (chunks, t1, out1, QuietEOF)
        | _ :: _ =>
          quiet_loop fuel' quiet_deadline eof (chunks ++ [decode extra_raw]) t1 out1
        end
      else quiet_loop fuel' quiet_deadline eof chunks t1 out
    else Some (chunks, t, out, QuietElapsed)
  end.

(** The loop of lines 105-124. *)
Fixpoint read_loop (fuel : nat) (deadline : Z) (eof : option Z)
    (chunks : list str) (t : Z) (out : pipe)
    : option (list str * Z * pipe * stop) :=
  match fuel with
  | O => None
  | S fuel' =>
    if t <? deadline then
      let remaining := Z.max min_remaining (deadline - t) in
      let '(ready, t1) := select t (Z.min outer_poll remaining) out eof in
      if ready then
        let '(raw, out1) := os_read t1 read_size out in
        match raw with
        | [] => Some (chunks, t1, out1, StopEOF)
        | _ :: _ =>
          match quiet_loop fuel' (t1 + quiet_window) eof
                  (chunks ++ [decode raw]) t1 out1 with
          | Some (chunks2, t2, out2, _) => read_loop fuel' deadline eof chunks2 t2 out2
          | None => None
          end
        end
      else
        match chunks with
        | _ :: _ => Some (chunks, t1, out, StopGap)
        | [] => read_loop fuel' deadline eof chunks t1 out
        end
    else Some (chunks, t, out, StopDeadline)
  end.

(** Fuel that always suffices (see [read_loop_total]). *)
Definition reader_fuel (deadline t : Z) (out : pipe) : nat :=
  (length out + Z.to_nat (deadline - t) + Z.to_nat quiet_window + 2)%nat.

(** [_read_response(process, timeout_seconds)] entered at instant [now] on a
    stdout holding [out]: the text returned, the instant of the return, and
    what is left in the pipe. *)
Definition read_response (timeout_seconds : Z) (eof : option Z) (now : Z) (out : pipe)
    : option (str * Z * pipe * stop) :=
  let deadline := now + 1000 * timeout_seconds in
  match read_loop (reader_fuel deadline now out) deadline eof [] now out with
  | Some (chunks, t, out', why) => Some (join chunks, t, out', why)
  | None => None
  end.

End Reader.

Import Reader.

(** ** A child process: [subprocess.Popen] *)

Module Process.

Inductive signal := SIGTERM | SIGKILL.

(** What the environment decides about a child when it is spawned. *)
Record Child := {
  child_exit : option Z;         (* the instant it exits on its own *)
  child_stdin_close : option Z;  (* the instant it closes its stdin *)
  child_term_delay : option Z;   (* how long after SIGTERM it exits; [None]: it ignores SIGTERM *)
  child_kill_delay : Z;          (* how long after SIGKILL it is gone *)
  child_stdout : pipe;           (* what it writes to stdout (stderr merged), and when *)
  child_stdout_close : option Z  (* the instant its stdout reaches end of file *)
}.

(** A [Popen] object: the child's identity, its fate, and what the adapter
    has done to it so far. *)
Record Popen := {
  pid : nat;
  exits_at : option Z;           (* the instant from which it is gone *)
  stdin_closes_at : option Z;
  term_delay : option Z;
  kill_delay : Z;
  stdout : pipe;                 (* bytes not yet read by the adapter *)
  stdout_eof : option Z;
  stdin_log : list str;          (* the lines written to its stdin *)
  signals : list signal          (* the signals sent to it *)
}.

Definition popen (n : nat) (c : Child) : Popen :=
  {| pid := n; exits_at := child_exit c; stdin_closes_at := child_stdin_close c;
     term_delay := child_term_delay c; kill_delay := child_kill_delay c;
     stdout := child_stdout c;
     stdout_eof := child_stdout_close c; stdin_log := []; signals := [] |}.

Definition reached (o : option Z) (now : Z) : bool :=
  match o with Some e => e <=? now | None => false end.

(** [process.poll() is not None] at instant [now]. *)
Definition exited (p : Popen) (now : Z) : bool := reached (exits_at p) now.

(** The earlier of two optional instants. *)
Definition earliest (a b : option Z) : option Z :=
  match a, b with
  | Some x, Some y => Some (Z.min x y)
  | Some x, None => Some x
  | None, o => o
  end.

(** The grace period of [process.wait(timeout=3)]. *)
Definition grace : Z := 3000.

Definition with_fate (p : Popen) (e : Z) (sent : list signal) : Popen :=
  {| pid := pid p; exits_at := Some e; stdin_closes_at := stdin_closes_at p;
     term_delay := term_delay p; kill_delay := kill_delay p;
     stdout := stdout p; stdout_eof := stdout_eof p;
     stdin_log := stdin_log p; signals := signals p ++ sent |}.

(** The instant from which a process is gone when SIGKILL is sent to it at
    [t] and it would otherwise have gone at [e] (if ever). *)
Definition killed_at (p : Popen) (t : Z) (e : option Z) : Z :=
  match e with
  | Some e => Z.min e (t + Z.max 0 (kill_delay p))
  | None => t + Z.max 0 (kill_delay p)
  end.

(** [ClaudeAdapter._terminate_process(process)] called at instant [now]:
    the process afterwards and the instant at which the call returns.
    After [process.kill()] the call returns at once: it does not wait for
    the process to go. *)
Definition terminate_process (p : Popen) (now : Z) : Popen * Z :=
  if exited p now then (p, now)
  else
    (* process.terminate() *)
    let by_term := match term_delay p with
                   | Some d => Some (now + Z.max 0 d)
                   | None => None
                   end in
    (* process.wait(timeout=3) *)
    match earliest (exits_at p) by_term with
    | Some e =>
      if e <=? now + grace then (with_fate p e [SIGTERM], e)
      else (* TimeoutExpired: process.kill() *)
        (with_fate p (killed_at p (now + grace) (Some e)) [SIGTERM; SIGKILL],
         now + grace)
    | None =>
      (with_fate p (killed_at p (now + grace) None) [SIGTERM; SIGKILL], now + grace)
    end.

(** [process.stdin.write(line); process.stdin.flush()] at instant [now]:
    [None] is the [BrokenPipeError] of a pipe nobody reads any more. *)
Definition stdin_write (p : Popen) (now : Z) (line : str) : option Popen :=
  if reached (stdin_closes_at p) now || exited p now then None
  else Some {| pid := pid p; exits_at := exits_at p;
               stdin_closes_at := stdin_closes_at p; term_delay := term_delay p;
               kill_delay := kill_delay p;
               stdout := stdout p; stdout_eof := stdout_eof p;
               stdin_log := stdin_log p ++ [line]; signals := signals p |}.

(** The process after the adapter has consumed its stdout down to [out]. *)
Definition with_stdout (p : Popen) (out : pipe) : Popen :=
  {| pid := pid p; exits_at := exits_at p; stdin_closes_at := stdin_closes_at p;
     term_delay := term_delay p; kill_delay := kill_delay p;
     stdout := out; stdout_eof := stdout_eof p;
     stdin_log := stdin_log p; signals := signals p |}.

End Process.

Import Process.

(** ** The adapter's state and its monad *)

Module Adapter.

(** [ClaudeSession].  The two locks of the source carry no data: the
    session lock is implicit in running one request at a time, the registry
    lock shows in the event log. *)
Record ClaudeSession := {
  session_key : str;
  process : Popen;
  last_used : Z
}.

Inductive event :=
  | EvAcquire              (* the registry lock is taken *)
  | EvRelease              (* the registry lock is released *)
  | EvSpawn (n : nat)
  | EvSigTerm (n : nat)
  | EvWait (n : nat) (ms : Z)   (* a [wait] on process [n] that blocked for [ms] *)
  | EvSigKill (n : nat)
  | EvWrite (n : nat)
  | EvShutdown             (* the shutdown event is set *)
  | EvJoin (ms : Z).       (* a [join] on the reaper thread that blocked for [ms] *)

(** The fields of a [ClaudeAdapter] instance, the clock, and two records
    kept for observation: the log of events and the processes that
    [_terminate_process] was called on, as it left them.  The dictionary
    [self._sessions] is the map [sessions] together with [key_order], the
    order in which its keys were inserted, which is the order in which
    Python iterates over it. *)
Record State := {
  idle_timeout_seconds : Z;
  cleanup_interval_seconds : Z;
  sessions : gmap str ClaudeSession;
  key_order : list str;
  clock : Z;
  spawned : nat;            (* the number of [Popen] calls made so far *)
  log : list event;
  reaped : list Popen
}.

Definition set_sessions (m : gmap str ClaudeSession) (st : State) : State :=
  {| idle_timeout_seconds := idle_timeout_seconds st;
     cleanup_interval_seconds := cleanup_interval_seconds st;
     sessions := m; key_order := key_order st; clock := clock st; spawned := spawned st;
     log := log st; reaped := reaped st |}.

Definition set_key_order (ks : list str) (st : State) : State :=
  {| idle_timeout_seconds := idle_timeout_seconds st;
     cleanup_interval_seconds := cleanup_interval_seconds st;
     sessions := sessions st; key_order := ks; clock := clock st;
     spawned := spawned st; log := log st; reaped := reaped st |}.

Definition set_clock (t : Z) (st : State) : State :=
  {| idle_timeout_seconds := idle_timeout_seconds st;
     cleanup_interval_seconds := cleanup_interval_seconds st;
     sessions := sessions st; key_order := key_order st; clock := t; spawned := spawned st;
     log := log st; reaped := reaped st |}.

Definition set_spawned (n : nat) (st : State) : State :=
  {| idle_timeout_seconds := idle_timeout_seconds st;
     cleanup_interval_seconds := cleanup_interval_seconds st;
     sessions := sessions st; key_order := key_order st; clock := clock st; spawned := n;
     log := log st; reaped := reaped st |}.

Definition add_log (evs : list event) (st : State) : State :=
  {| idle_timeout_seconds := idle_timeout_seconds st;
     cleanup_interval_seconds := cleanup_interval_seconds st;
     sessions := sessions st; key_order := key_order st; clock := clock st; spawned := spawned st;
     log := log st ++ evs; reaped := reaped st |}.

Definition add_reaped (p : Popen) (st : State) : State :=
  {| idle_timeout_seconds := idle_timeout_seconds st;
     cleanup_interval_seconds := cleanup_interval_seconds st;
     sessions := sessions st; key_order := key_order st; clock := clock st; spawned := spawned st;
     log := log st; reaped := reaped st ++ [p] |}.

(** [ClaudeAdapter.__init__] at instant [now]. *)
Definition init (idle interval now : Z) : State :=
  {| idle_timeout_seconds := idle; cleanup_interval_seconds := interval;
     sessions := ∅; key_order := []; clock := now; spawned := 0; log := [];
     reaped := [] |}.

Inductive exn :=
  | BrokenPipeError        (* a write to a closed stdin *)
  | OSError                (* [Popen] could not start the command *)
  | OtherError (name : string).   (* any other exception, by its class *)

Inductive outcome (A : Type) :=
  | Returned (a : A)
  | Raised (e : exn)
  | Diverged.              (* the fuel of a [while] loop ran out *)
Arguments Returned {A} a.
Arguments Raised {A} e.
Arguments Diverged {A}.

Definition M (A : Type) : Type := State → outcome A * State.

Definition ret {A} (a : A) : M A := λ st, (Returned a, st).
Definition raise {A} (e : exn) : M A := λ st, (Raised e, st).
Definition diverge {A} : M A := λ st, (Diverged, st).
Definition bind {A B} (m : M A) (f : A → M B) : M B :=
  λ st, match m st with
        | (Returned a, st') => f a st'
        | (Raised e, st') => (Raised e, st')
        | (Diverged, st') => (Diverged, st')
        end.
Definition gets {A} (f : State → A) : M A := λ st, (Returned (f st), st).
Definition modify (f : State → State) : M unit := λ st, (Returned tt, f st).

#[export] Instance M_ret : MRet M := @ret.
#[export] Instance M_bind : MBind M := λ A B f m, bind m f.

(** [with self._sessions_lock: body]: the lock is released however the
    body ends. *)
Definition with_sessions_lock {A} (body : M A) : M A :=
  λ st, let '(r, st') := body (add_log [EvAcquire] st) in (r, add_log [EvRelease] st').

(** [for x in xs: body(x)]. *)
Fixpoint for_each {A} (xs : list A) (body : A → M unit) : M unit :=
  match xs with
  | [] => ret tt
  | x :: xs' => body x ;; for_each xs' body
  end.

End Adapter.

Import Adapter.

(** ** [ClaudeAdapter]: registry, coordinator, reaper *)

Module ClaudeAdapter.

Section WithEnvironment.

(** The environment: what the [n]-th call of [subprocess.Popen] yields;
    [None] when the command cannot be started. *)
Variable env : nat → option Child.

(** [self._spawn_process()]. *)
Definition spawn_process : M Popen := λ st,
  let n := spawned st in
  match env n with
  | Some c => (Returned (popen n c), add_log [EvSpawn n] (set_spawned (S n) st))
  | None => (Raised OSError, set_spawned (S n) st)
  end.

(** The events of one [_terminate_process] call that sent [sent] and
    returned after [ms]. *)
Definition termination_events (n : nat) (sent : list signal) (ms : Z) : list event :=
  match sent with
  | [] => []
  | [SIGTERM] => [EvSigTerm n; EvWait n ms]
  | _ => [EvSigTerm n; EvWait n ms; EvSigKill n]
  end.

(** [self._terminate_process(process)] as a step of the adapter. *)
Definition terminate_process_now (p : Popen) : M unit := λ st,
  let '(p', t') := terminate_process p (clock st) in
  let sent := drop (length (signals p)) (signals p') in
  (Returned tt,
   add_reaped p' (set_clock t'
     (add_log (termination_events (pid p) sent (t' - clock st)) st))).

(** [self._sessions[session_key] = session]; also the write-back of a
    mutation of the session object the registry refers to.  A key that is
    new to the dictionary goes to the end of its order, a key that is there
    keeps its place. *)
Definition register (key : str) (s : ClaudeSession) (st : State) : State :=
  set_key_order
    (if decide (key ∈ key_order st) then key_order st else key_order st ++ [key])
    (set_sessions (<[key := s]> (sessions st)) st).

Definition put_session (key : str) (s : ClaudeSession) : M unit :=
  modify (register key s).

(** [self._sessions.pop(session_key, None)], for its effect. *)
Definition unregister (key : str) (st : State) : State :=
  set_key_order (filter (λ k, k ≠ key) (key_order st))
    (set_sessions (delete key (sessions st)) st).

Definition pop_session (key : str) : M unit := modify (unregister key).

(** The keys of the dictionary in the order Python iterates over them:
    the order of insertion.  Keys that [key_order] should list but does
    not, which no operation of the adapter ever leaves behind, come last. *)
Definition dict_keys (order : list str) (m : gmap str ClaudeSession) : list str :=
  let recorded := filter (λ k, is_Some (m !! k)) (remove_dups order) in
  recorded ++ filter (λ k, k ∉ recorded) (map_to_list m).*1.

(** Lines 74-76 and 83-85: spawn, build the session, install it. *)
Definition install_session (key : str) : M ClaudeSession :=
  p ← spawn_process;
  now ← gets clock;
  let session := {| session_key := key; process := p; last_used := now |} in
  put_session key session;;
  mret session.

(** [self._get_or_create_session(session_key)].  [_terminate_process] is
    only reached here for a process that [poll] has just found exited, on
    which it does nothing. *)
Definition get_or_create_session (key : str) : M ClaudeSession :=
  with_sessions_lock (
    m ← gets sessions;
    now ← gets clock;
    match m !! key with
    | Some session =>
      if negb (exited (process session) now) then mret session
      else terminate_process_now (process session);; install_session key
    | None => install_session key
    end).

(** [self._replace_session(session_key)].  The process that
    [_terminate_process] has dealt with is the object the registry entry
    refers to, so the entry shows what was done to it until the new session
    takes its place. *)
Definition replace_session (key : str) : M ClaudeSession :=
  with_sessions_lock (
    m ← gets sessions;
    match m !! key with
    | Some existing =>
      now ← gets clock;
      terminate_process_now (process existing);;
      put_session key {| session_key := session_key existing;
                         process := (terminate_process (process existing) now).1;
                         last_used := last_used existing |}
    | None => mret tt
    end;;
    install_session key).

(** [self._terminate_session(session_key)]. *)
Definition terminate_session (key : str) : M unit :=
  session ← with_sessions_lock (
    m ← gets sessions;
    pop_session key;;
    mret (m !! key));
  match session with
  | Some s => terminate_process_now (process s)
  | None => mret tt
  end.

(** [output.strip() or "(no response)"]. *)
Definition placeholder : str := lit "(no response)".

Definition strip_or_placeholder (output : str) : str :=
  if truthy (strip output) then strip output else placeholder.

(** [self.ask(session_key, prompt, timeout_seconds)]; one unit of fuel per
    iteration of [while True]. *)
Fixpoint ask (fuel : nat) (key prompt : str) (timeout_seconds : Z) : M str :=
  match fuel with
  | O => diverge
  | S fuel' =>
    session ← get_or_create_session key;
    now ← gets clock;
    if exited (process session) now then
      replace_session key;;
      ask fuel' key prompt timeout_seconds
    else
      put_session key {| session_key := session_key session;
                         process := process session; last_used := now |};;
      match stdin_write (process session) now (prompt ++ [10%N]) with
      | None => raise BrokenPipeError
      | Some p1 =>
        put_session key {| session_key := session_key session;
                           process := p1; last_used := now |};;
        modify (add_log [EvWrite (pid p1)]);;
        match read_response timeout_seconds (stdout_eof p1) now (stdout p1) with
        | None => diverge
        | Some (output, t, out', _) =>
          modify (set_clock t);;
          put_session key {| session_key := session_key session;
                             process := with_stdout p1 out'; last_used := t |};;
          mret (strip_or_placeholder output)
        end
      end
  end.

(** The keys the reaper marks at instant [now] (lines 130-134). *)
Definition is_stale (idle_seconds now : Z) (s : ClaudeSession) : bool :=
  1000 * idle_seconds <? now - last_used s.

Definition stale_keys (idle_seconds now : Z) (order : list str)
    (m : gmap str ClaudeSession) : list str :=
  filter (λ k, from_option (is_stale idle_seconds now) false (m !! k) = true)
    (dict_keys order m).

(** The scan of one tick: lines 129-134. *)
Definition scan_stale : M (list str) :=
  now ← gets clock;
  idle ← gets idle_timeout_seconds;
  with_sessions_lock (
    m ← gets sessions;
    order ← gets key_order;
    mret (stale_keys idle now order m)).

(** The evictions of one tick: lines 135-137. *)
Definition evict (stale : list str) : M unit := for_each stale terminate_session.

(** The body of the reaper's loop. *)
Definition cleanup_tick : M unit := stale ← scan_stale; evict stale.

(** [self._cleanup_worker()] when the shutdown event is set after [ticks]
    waits have timed out. *)
Fixpoint cleanup_worker (ticks : nat) : M unit :=
  match ticks with
  | O => mret tt
  | S ticks' =>
    interval ← gets cleanup_interval_seconds;
    modify (λ st, set_clock (clock st + 1000 * interval) st);;
    cleanup_tick;;
    cleanup_worker ticks'
  end.

(** The longest that [self._cleanup_thread.join(timeout=2)] waits. *)
Definition join_timeout : Z := 2000.

(** [self.close()].  [reaper_busy] is how long the reaper thread needs to
    see the shutdown event and return: nothing when it sits in its wait,
    the rest of its tick when it is in one.  The join gives up after two
    seconds. *)
Definition close (reaper_busy : Z) : M unit :=
  modify (add_log [EvShutdown]);;
  let joined := Z.min join_timeout (Z.max 0 reaper_busy) in
  modify (λ st, add_log [EvJoin joined] (set_clock (clock st + joined) st));;
  keys ← with_sessions_lock (
    m ← gets sessions;
    order ← gets key_order;
    mret (dict_keys order m));
  for_each keys terminate_session.

End WithEnvironment.

End ClaudeAdapter.

Import ClaudeAdapter.

(** ** The registry lock, read off the event log *)

Module Lock.

(** Whether every signal and every wait of [evs] happens while the registry
    lock is free, given whether it is [held] at the start. *)
Fixpoint termination_unlocked (held : bool) (evs : list event) : bool :=
  match evs with
  | [] => true
  | EvAcquire :: evs' => termination_unlocked true evs'
  | EvRelease :: evs' => termination_unlocked false evs'
  | EvSigTerm _ :: evs' | EvWait _ _ :: evs' | EvSigKill _ :: evs' =>
    negb held && termination_unlocked held evs'
  | _ :: evs' => termination_unlocked held evs'
  end.

(** The time spent waiting on a process while the lock is held. *)
Fixpoint blocked_under_lock (held : bool) (evs : list event) : Z :=
  match evs with
  | [] => 0
  | EvAcquire :: evs' => blocked_under_lock true evs'
  | EvRelease :: evs' => blocked_under_lock false evs'
  | EvWait _ ms :: evs' =>
    (if held then ms else 0) + blocked_under_lock held evs'
  | _ :: evs' => blocked_under_lock held evs'
  end.

End Lock.

Import Lock.

(** ** [BridgeService.handle_incoming_event] *)

Module Bridge.

(** [QQMessageEvent], with the field types the dataclass declares. *)
Record QQMessageEvent (Payload : Type) := {
  event_id : str;
  sender_id : str;
  channel_id : option str;
  group_id : option str;
  text : str;
  is_self_message : bool;
  raw_payload : Payload
}.
Arguments event_id {Payload} _.
Arguments sender_id {Payload} _.
Arguments channel_id {Payload} _.
Arguments group_id {Payload} _.
Arguments text {Payload} _.
Arguments is_self_message {Payload} _.
Arguments raw_payload {Payload} _.

(** The values of the dictionary the handler returns. *)
Inductive pyval := PStr (s : str) | PInt (z : Z).

(** The calls the service makes on its two collaborators. *)
Inductive call (Payload : Type) :=
  | CallAsk (session_key prompt : str)
  | CallSend (event : QQMessageEvent Payload) (content : str).
Arguments CallAsk {Payload} _ _.
Arguments CallSend {Payload} _ _.

(** The service's world: the Claude adapter and the calls made so far. *)
Record World (Payload : Type) := {
  adapter : State;
  trace : list (call Payload)
}.
Arguments adapter {Payload} _.
Arguments trace {Payload} _.

(** The default of [ask]'s [timeout_seconds]. *)
Definition default_timeout_seconds : Z := 30.

Section Service.

Context {Payload : Type}.

(** [self.qq_adapter]: the parser, which may raise on a payload of an
    unexpected shape, and the sender, whose answer the network decides and
    which may raise too (it catches only the two errors of [urllib]). *)
Variable parse_event : Payload → exn + QQMessageEvent Payload.
Variable send_message : QQMessageEvent Payload → str → exn + Z * str.

(** [self.claude_adapter], run against an environment, with the fuel of
    [ask]'s loop. *)
Variable env : nat → option Child.
Variable fuel : nat.

Definition ignored (reason : string) (event : QQMessageEvent Payload)
    : gmap string pyval :=
  {[ "status"%string := PStr (lit "ignored");
     "reason"%string := PStr (lit reason);
     "event_id"%string := PStr (event_id event) ]}.

(** [self.handle_incoming_event(payload)]. *)
Definition handle_incoming_event (payload : Payload) (w : World Payload)
    : outcome (gmap string pyval) * World Payload :=
  match parse_event payload with
  | inl e => (Raised e, w)
  | inr event =>
    if is_self_message event then (Returned (ignored "self_message" event), w)
    else if negb (truthy (sender_id event)) || negb (truthy (strip (text event)))
    then (Returned (ignored "empty_sender_or_text" event), w)
    else
      let session_key := sender_id event in
      let asked := trace w ++ [CallAsk session_key (text event)] in
      match ask env fuel session_key (text event) default_timeout_seconds (adapter w) with
      | (Returned claude_response, st) =>
        let sent := {| adapter := st;
                       trace := asked ++ [CallSend event claude_response] |} in
        match send_message event claude_response with
        | inl e => (Raised e, sent)
        | inr (status_code, response_payload) =>
          (Returned {[ "status"%string := PStr (lit "ok");
                       "event_id"%string := PStr (event_id event);
                       "session_key"%string := PStr session_key;
                       "qq_send_status"%string := PInt status_code;
                       "qq_send_response"%string := PStr (take 500 response_payload) ]},
           sent)
        end
      | (Raised e, st) => (Raised e, {| adapter := st; trace := asked |})
      | (Diverged, st) => (Diverged, {| adapter := st; trace := asked |})
      end
  end.

End Service.

End Bridge.

Import Bridge.

(** ** Statements about the reader *)

Module ReaderSpec.

(** Between a pipe [out] and what is left of it, [out'], the reader's
    chunks grew from [chunks] to [chunks']: the bytes taken are a prefix of
    the pipe, cut into pieces, and each piece was decoded and appended. *)
Definition collated (out out' : pipe) (chunks chunks' : list str) : Prop :=
  ∃ (pieces : list (list byte)) (consumed : pipe),
    chunks' = chunks ++ map decode pieces ∧
    out = consumed ++ out' ∧
    consumed.*2 = concat pieces.

(** At instant [t'] nothing that had arrived earlier is left at the front of
    the pipe [out'], unless the last of the [pieces] read from it filled the
    read buffer. *)
Definition drained (t' : Z) (out' : pipe) (pieces : list (list byte)) : Prop :=
  match out' with (a, _) :: _ => t' ≤ a | [] => True end ∨
  ∃ l, last pieces = Some l ∧ length l = read_size.

(** The same output, [δ] later. *)
Definition delay (δ : Z) (out : pipe) : pipe := map (λ ab, (ab.1 + δ, ab.2)) out.
Definition delay_eof (δ : Z) (eof : option Z) : option Z := (λ e, e + δ) <$> eof.

(** The result of a loop, [δ] later. *)
Definition shift_result {R} (δ : Z) (r : list str * Z * pipe * R) :=
  (r.1.1.1, r.1.1.2 + δ, delay δ r.1.2, r.2).

End ReaderSpec.

Import ReaderSpec.

(** ** Statements about processes *)

Module ProcessSpec.

(** At instant [t] the process is gone, or SIGKILL was the last signal sent
    to it and it will be gone within its kill latency from [t]. *)
Definition terminated (p : Popen) (t : Z) : Prop :=
  exited p t = true ∨
  (last (signals p) = Some SIGKILL ∧
   ∃ e, exits_at p = Some e ∧ e ≤ t + Z.max 0 (kill_delay p)).

End ProcessSpec.

Import ProcessSpec.

(** ** Statements about the registry *)

Module RegistrySpec.

(** Every entry is filed under its session's own key. *)
Definition key_consistent (m : gmap str ClaudeSession) : Prop :=
  map_Forall (λ k s, session_key s = k) m.

(** [key_order] lists the keys of the registry, each once. *)
Definition keys_recorded (st : State) : Prop :=
  NoDup (key_order st) ∧ ∀ k, k ∈ key_order st ↔ is_Some (sessions st !! k).

(** The operations that touch the registry, as requests on the adapter. *)
Inductive request :=
  | ReqAsk (fuel : nat) (key prompt : str) (timeout_seconds : Z)
  | ReqGetOrCreate (key : str)
  | ReqReplace (key : str)
  | ReqTerminateSession (key : str)
  | ReqCleanup (ticks : nat)
  | ReqClose (reaper_busy : Z).

Definition serve (env : nat → option Child) (r : request) (st : State) : State :=
  match r with
  | ReqAsk fuel key prompt timeout_seconds => (ask env fuel key prompt timeout_seconds st).2
  | ReqGetOrCreate key => (get_or_create_session env key st).2
  | ReqReplace key => (replace_session env key st).2
  | ReqTerminateSession key => (terminate_session key st).2
  | ReqCleanup ticks => (cleanup_worker ticks st).2
  | ReqClose reaper_busy => (close reaper_busy st).2
  end.

(** The adapter after serving the requests [rs] in order. *)
Definition serve_all (env : nat → option Child) (rs : list request) (st : State) : State :=
  foldl (λ st r, serve env r st) st rs.

(** The session with its process and its time stamp renewed. *)
Definition touched (session : ClaudeSession) (p : Popen) (t : Z) : ClaudeSession :=
  {| session_key := session_key session; process := p; last_used := t |}.

(** The adapter after an iteration of [ask] that found the process exited
    and replaced the session: where the next iteration starts. *)
Definition retried (env : nat → option Child) (key : str) (st : State) : State :=
  (replace_session env key (get_or_create_session env key st).2).2.

(** The events an operation adds to the log. *)
Definition events_of {A} (m : M A) (st : State) : list event :=
  drop (length (log st)) (log (m st).2).

End RegistrySpec.

Import RegistrySpec.

(** ** Children and streams used as examples *)

Module Scenario.

(** "AB" at instant [a], "CD" 0.3 s later, then silence on an open pipe. *)
Definition ab_then_cd (a : Z) : pipe :=
  emit a (bytes_of "AB") ++ emit (a + 300) (bytes_of "CD").

(** The rest of a pipe whose "A" has been read: "B" follows at 450 ms. *)
Definition a_then_b : pipe := emit 450 (bytes_of "B").

(** A child that answers "hi" 100 ms after instant [t0] and exits 20 ms
    after a SIGTERM. *)
Definition hello (t0 : Z) : Child :=
  {| child_exit := None; child_stdin_close := None; child_term_delay := Some 20;
     child_kill_delay := 0;
     child_stdout := emit (t0 + 100) (bytes_of "hi"); child_stdout_close := None |}.

(** A child that writes nothing, ignores SIGTERM and takes 40 ms to go
    once it is killed. *)
Definition stubborn : Child :=
  {| child_exit := None; child_stdin_close := None; child_term_delay := None;
     child_kill_delay := 40;
     child_stdout := []; child_stdout_close := None |}.

(** A child that runs but has closed its stdin. *)
Definition deaf : Child :=
  {| child_exit := None; child_stdin_close := Some 0; child_term_delay := Some 20;
     child_kill_delay := 0;
     child_stdout := []; child_stdout_close := None |}.

(** A child that has exited by the time anybody looks. *)
Definition stillborn : Child :=
  {| child_exit := Some 0; child_stdin_close := Some 0; child_term_delay := Some 0;
     child_kill_delay := 0;
     child_stdout := []; child_stdout_close := Some 0 |}.

(** A child that runs but closed its stdout without writing a byte. *)
Definition mute : Child :=
  {| child_exit := None; child_stdin_close := None; child_term_delay := Some 20;
     child_kill_delay := 0;
     child_stdout := []; child_stdout_close := Some 0 |}.

Definition always (c : Child) (n : nat) : option Child := Some c.

(** The first child is deaf, every later one says "hi". *)
Definition deaf_then_hello (n : nat) : option Child :=
  match n with O => Some deaf | S _ => Some (hello 0) end.

Definition u1 : str := lit "u1".
Definition u2 : str := lit "u2".

(** The first child ignores SIGTERM, every later one says "hi" shortly
    after instant 1003000. *)
Definition stubborn_then_hello (n : nat) : option Child :=
  match n with O => Some stubborn | S _ => Some (hello 1003000) end.

(** Two sessions created at instant 0, [u2] on the stubborn child and [u1]
    on a talking one, looked at 1000 s later with an idle timeout of 900 s. *)
Definition two_idle : State :=
  set_clock 1000000
    (get_or_create_session stubborn_then_hello u1
       (get_or_create_session stubborn_then_hello u2 (init 900 30 0)).2).2.

(** A registry whose entry for [u1] holds a running process that ignores
    SIGTERM. *)
Definition live_stubborn : State :=
  (get_or_create_session (always stubborn) u1 (init 900 30 0)).2.

(** The event of the repository's test [test_ignores_empty_sender_or_text]
    and a parser that yields it whatever the payload, like the test's mock. *)
Definition blank_event : QQMessageEvent unit :=
  {| event_id := lit "evt-2"; sender_id := []; channel_id := None; group_id := None;
     text := lit "   "; is_self_message := false; raw_payload := tt |}.
Definition parse_blank (payload : unit) : exn + QQMessageEvent unit := inr blank_event.
Definition send_ok (event : QQMessageEvent unit) (content : str) : exn + Z * str :=
  inr (200, lit "{}").
Definition fresh_world : World unit :=
  {| adapter := init 900 30 0; trace := [] |}.

(** A child that exits on its own at 500 ms. *)
Definition short_lived : Child :=
  {| child_exit := Some 500; child_stdin_close := Some 500; child_term_delay := Some 0;
     child_kill_delay := 0;
     child_stdout := []; child_stdout_close := Some 500 |}.

Definition short_then_hello (n : nat) : option Child :=
  match n with O => Some short_lived | S _ => Some (hello 1000) end.

(** The registry one second after [u1]'s process was spawned, which exited
    half a second ago. *)
Definition crashed : State :=
  set_clock 1000 (get_or_create_session short_then_hello u1 (init 900 30 0)).2.

(** No command can be started. *)
Definition no_command (n : nat) : option Child := None.


(** The event of the repository's test [test_ignores_self_messages]. *)
Definition self_event : QQMessageEvent unit :=
  {| event_id := lit "evt-1"; sender_id := lit "bot-1"; channel_id := Some (lit "ch-1");
     group_id := None; text := lit "hello"; is_self_message := true; raw_payload := tt |}.
Definition parse_self (payload : unit) : exn + QQMessageEvent unit := inr self_event.

End Scenario.

Import Scenario.
(** * Facts about the pipe *)

Module PipeFacts.

Lemma select_time t d out eof r t1 :
  0 ≤ d → select t d out eof = (r, t1) → t ≤ t1 ≤ t + d.
Proof.
  unfold select. intros Hd H.
  destruct (match out with [] => eof | (a, _) :: _ => Some a end) as [a|].
  - destruct (Z.ltb_spec a (t + d)); inversion H; subst; lia.
  - inversion H; subst; lia.
Qed.

Lemma select_idle t d out eof t1 :
  select t d out eof = (false, t1) → t1 = t + d.
Proof.
  unfold select. intros H.
  destruct (match out with [] => eof | (a, _) :: _ => Some a end) as [a|].
  - destruct (Z.ltb_spec a (t + d)); inversion H; subst; lia.
  - inversion H; subst; lia.
Qed.

(** When [select] reports a non-empty pipe ready, its first byte has arrived. *)
Lemma select_ready_head t d a b out eof t1 :
  select t d ((a, b) :: out) eof = (true, t1) → a ≤ t1.
Proof.
  unfold select. destruct (Z.ltb_spec a (t + d)); intros Hs; inversion Hs; lia.
Qed.

(** When [select] reports an empty pipe ready, its write end has closed. *)
Lemma select_ready_eof t d eof t1 :
  select t d [] eof = (true, t1) → ∃ e, eof = Some e ∧ e ≤ t1.
Proof.
  unfold select. destruct eof as [e|]; [|intros Hs; inversion Hs].
  destruct (Z.ltb_spec e (t + d)); intros Hs; inversion Hs. exists e. split; [done|lia].
Qed.

Lemma arrived_prefix t out : ∃ rest, out = arrived t out ++ rest.
Proof.
  induction out as [|[a b] out [rest IH]]; simpl.
  - by exists [].
  - destruct (a <=? t).
    + exists rest. simpl. by rewrite <- IH.
    + by exists ((a, b) :: out).
Qed.

(** A read hands over a prefix of the pipe and leaves the rest in place. *)
Lemma os_read_split t n out raw out1 :
  os_read t n out = (raw, out1) →
  ∃ got, out = got ++ out1 ∧ raw = got.*2 ∧ (length raw ≤ n)%nat.
Proof.
  unfold os_read. intros H. inversion H; subst; clear H.
  remember (take n (arrived t out)) as got eqn:Hgot.
  assert (∃ x, out = got ++ x) as [x Hx].
  { destruct (arrived_prefix t out) as [rest Hrest].
    exists (drop n (arrived t out) ++ rest).
    rewrite app_assoc, Hgot, take_drop. exact Hrest. }
  exists got. split; [|split].
  - rewrite Hx at 2. rewrite drop_app_length. exact Hx.
  - done.
  - rewrite length_map, Hgot, length_take. lia.
Qed.

Lemma os_read_shorter t n out raw out1 :
  os_read t n out = (raw, out1) → (length out1 + length raw = length out)%nat.
Proof.
  intros H. destruct (os_read_split _ _ _ _ _ H) as (got & -> & -> & _).
  rewrite length_app, length_map. lia.
Qed.

(** A read from an empty pipe, or before the first byte has arrived, is
    the empty read. *)
Lemma os_read_some t n a b out :
  a ≤ t → (0 < n)%nat → ∃ b' raw out1, os_read t n ((a, b) :: out) = (b' :: raw, out1).
Proof.
  intros Ha Hn. unfold os_read. simpl.
  destruct (Z.leb_spec a t); [|lia].
  destruct n as [|n]; [lia|]. simpl. eauto.
Qed.

(** A poll that times out found nothing to read during its whole wait. *)
Lemma select_idle_nothing t d out eof t1 :
  select t d out eof = (false, t1) →
  match out with
  | (a, _) :: _ => t1 ≤ a
  | [] => match eof with Some e => t1 ≤ e | None => True end
  end.
Proof.
  unfold select. destruct out as [|[a b] out].
  - destruct eof as [e|]; [|done].
    destruct (Z.ltb_spec e (t + d)); intros Hs; inversion Hs; lia.
  - destruct (Z.ltb_spec a (t + d)); intros Hs; inversion Hs; lia.
Qed.

(** What a read leaves at the front of the pipe has not arrived yet. *)
Lemma arrived_rest t out :
  match drop (length (arrived t out)) out with
  | (a, _) :: _ => t < a
  | [] => True
  end.
Proof.
  induction out as [|[a b] out IH]; simpl; [done|].
  destruct (Z.leb_spec a t); simpl; [exact IH|lia].
Qed.

(** A read fills its buffer or takes every byte that has arrived. *)
Lemma os_read_drains t n out raw out1 :
  os_read t n out = (raw, out1) →
  length raw = n ∨ match out1 with (a, _) :: _ => t < a | [] => True end.
Proof.
  unfold os_read. intros H. inversion H; subst; clear H.
  destruct (decide (n ≤ length (arrived t out))%nat) as [Hfull|Hshort].
  - left. rewrite length_map, length_take. lia.
  - right. rewrite take_ge by lia. apply arrived_rest.
Qed.

End PipeFacts.

(** * Facts about the Response Reader *)

Module ReaderFacts.

Import PipeFacts.

Lemma collated_refl out chunks : collated out out chunks chunks.
Proof. exists [], []. simpl. by rewrite app_nil_r. Qed.

Lemma collated_read t n out raw out1 chunks out' chunks' :
  os_read t n out = (raw, out1) →
  collated out1 out' (chunks ++ [decode raw]) chunks' →
  collated out out' chunks chunks'.
Proof.
  intros Hr (pieces & consumed & -> & -> & Hc).
  destruct (os_read_split _ _ _ _ _ Hr) as (got & -> & -> & _).
  exists (got.*2 :: pieces), (got ++ consumed). split; [|split].
  - simpl. by rewrite <- app_assoc.
  - by rewrite app_assoc.
  - rewrite fmap_app. simpl. by rewrite Hc.
Qed.

Lemma collated_trans o1 o2 o3 c1 c2 c3 :
  collated o1 o2 c1 c2 → collated o2 o3 c2 c3 → collated o1 o3 c1 c3.
Proof.
  intros (p1 & k1 & -> & -> & H1) (p2 & k2 & -> & -> & H2).
  exists (p1 ++ p2), (k1 ++ k2). split; [|split].
  - by rewrite map_app, app_assoc.
  - by rewrite app_assoc.
  - by rewrite fmap_app, concat_app, H1, H2.
Qed.

Lemma collated_length out out' chunks chunks' :
  collated out out' chunks chunks' → (length out' ≤ length out)%nat.
Proof. intros (? & ? & _ & -> & _). rewrite length_app. lia. Qed.

(** A ready descriptor yields the empty read only at the end of file. *)
Lemma ready_empty_read t d out eof t1 out1 :
  select t d out eof = (true, t1) → os_read t1 read_size out = ([], out1) →
  out = [] ∧ out1 = [] ∧ ∃ e, eof = Some e ∧ e ≤ t1.
Proof.
  intros Hs Hr. destruct out as [|[a b] out].
  - unfold os_read in Hr. simpl in Hr. inversion Hr.
    split; [done|]. split; [done|]. eapply select_ready_eof; eauto.
  - apply select_ready_head in Hs.
    destruct (os_read_some t1 read_size a b out Hs) as (b' & raw & o & Ho);
      [unfold read_size; lia|].
    rewrite Ho in Hr. discriminate.
Qed.

Lemma quiet_loop_S fuel qd eof chunks t out :
  quiet_loop (S fuel) qd eof chunks t out =
  if t <? qd then
    let '(ready, t1) := select t quiet_poll out eof in
    if ready then
      let '(extra_raw, out1) := os_read t1 read_size out in
      match extra_raw with
      | [] => Some (chunks, t1, out1, QuietEOF)
      | _ :: _ => quiet_loop fuel qd eof (chunks ++ [decode extra_raw]) t1 out1
      end
    else quiet_loop fuel qd eof chunks t1 out
  else Some (chunks, t, out, QuietElapsed).
Proof. reflexivity. Qed.

Lemma read_loop_S fuel deadline eof chunks t out :
  read_loop (S fuel) deadline eof chunks t out =
  if t <? deadline then
    let '(ready, t1) :=
      select t (Z.min outer_poll (Z.max min_remaining (deadline - t))) out eof in
    if ready then
      let '(raw, out1) := os_read t1 read_size out in
      match raw with
      | [] => Some (chunks, t1, out1, StopEOF)
      | _ :: _ =>
        match quiet_loop fuel (t1 + quiet_window) eof (chunks ++ [decode raw]) t1 out1 with
        | Some (chunks2, t2, out2, _) => read_loop fuel deadline eof chunks2 t2 out2
        | None => None
        end
      end
    else
      match chunks with
      | _ :: _ => Some (chunks, t1, out, StopGap)
      | [] => read_loop fuel deadline eof chunks t1 out
      end
  else Some (chunks, t, out, StopDeadline).
Proof. reflexivity. Qed.

(** What the quiet-window loop guarantees when it ends. *)
Lemma quiet_loop_spec fuel qd eof : ∀ chunks t out chunks' t' out' ex,
  quiet_loop fuel qd eof chunks t out = Some (chunks', t', out', ex) →
  t ≤ t' ∧ collated out out' chunks chunks' ∧
  (t' = t ∨ t' < qd + quiet_poll) ∧
  match ex with
  | QuietElapsed => qd ≤ t'
  | QuietEOF => t < qd ∧ out' = [] ∧ ∃ e, eof = Some e ∧ e ≤ t'
  end.
Proof.
  induction fuel as [|fuel IH]; intros chunks t out chunks' t' out' ex H; [discriminate|].
  rewrite quiet_loop_S in H.
  destruct (Z.ltb_spec t qd) as [Hlt|Hge].
  - destruct (select t quiet_poll out eof) as [ready t1] eqn:Hs.
    assert (t ≤ t1 ≤ t + quiet_poll) as Ht1
      by (eapply select_time; [|exact Hs]; unfold quiet_poll; lia).
    destruct ready.
    + destruct (os_read t1 read_size out) as [raw out1] eqn:Hr.
      destruct raw as [|b raw].
      * inversion H; subst; clear H.
        destruct (ready_empty_read _ _ _ _ _ _ Hs Hr) as (-> & -> & He).
        split; [lia|]. split; [apply collated_refl|]. split; [right; lia|done].
      * apply IH in H as (Ht & Hc & Hb & Hex).
        split; [lia|]. split; [eapply collated_read; eauto|].
        split; [right; lia|]. destruct ex; intuition lia.
    + apply IH in H as (Ht & Hc & Hb & Hex).
      split; [lia|]. split; [done|].
      split; [right; lia|]. destruct ex; intuition lia.
  - inversion H; subst; clear H.
    split; [lia|]. split; [apply collated_refl|]. split; [by left|lia].
Qed.

(** What the quiet-window loop has appended when it ends: no byte that
    arrived before its last poll returned is left in the pipe, unless its
    last read filled the buffer. *)
Lemma quiet_loop_drains fuel qd eof : ∀ chunks t out chunks' t' out' ex,
  quiet_loop fuel qd eof chunks t out = Some (chunks', t', out', ex) →
  t < qd →
  ∃ pieces consumed,
    chunks' = chunks ++ map decode pieces ∧ out = consumed ++ out' ∧
    consumed.*2 = concat pieces ∧ drained t' out' pieces.
Proof.
  induction fuel as [|fuel IH]; intros chunks t out chunks' t' out' ex H Hlt;
    [discriminate|].
  rewrite quiet_loop_S in H.
  destruct (Z.ltb_spec t qd) as [_|Hge]; [|lia].
  destruct (select t quiet_poll out eof) as [ready t1] eqn:Hs.
  destruct ready.
  - destruct (os_read t1 read_size out) as [raw out1] eqn:Hr.
    destruct raw as [|b raw].
    + inversion H; subst; clear H.
      destruct (ready_empty_read _ _ _ _ _ _ Hs Hr) as (-> & -> & He).
      exists [], []. simpl. rewrite app_nil_r. repeat split. by left.
    + pose proof (os_read_drains _ _ _ _ _ Hr) as Hfull.
      destruct (os_read_split _ _ _ _ _ Hr) as (got & -> & Hgot & _).
      destruct (Z.lt_ge_cases t1 qd) as [Hlt1|Hge1].
      * apply IH in H as (pieces & consumed & -> & -> & Hc & Hd); [|done].
        exists ((b :: raw) :: pieces), (got ++ consumed).
        split; [simpl; by rewrite <- app_assoc|].
        split; [by rewrite app_assoc|].
        split; [rewrite fmap_app; simpl; by rewrite Hc, <- Hgot|].
        destruct Hd as [Hd|(l & Hl & Hlen)]; [by left|].
        right. exists l. split; [|done].
        destruct pieces; [done|]. by rewrite last_cons_cons.
      * destruct fuel as [|fuel]; [discriminate|].
        rewrite quiet_loop_S in H.
        destruct (Z.ltb_spec t1 qd); [lia|]. inversion H; subst; clear H.
        exists [b :: raw], got. simpl. rewrite app_nil_r.
        split; [done|]. split; [done|]. split; [done|].
        destruct Hfull as [Hfull|Hrest].
        -- right. by exists (b :: raw).
        -- left. destruct out' as [|[a ?] ?]; [done|lia].
  - pose proof (select_idle_nothing _ _ _ _ _ Hs) as Hidle.
    destruct (Z.lt_ge_cases t1 qd) as [Hlt1|Hge1].
    + by apply IH in H.
    + destruct fuel as [|fuel]; [discriminate|].
      rewrite quiet_loop_S in H.
      destruct (Z.ltb_spec t1 qd); [lia|]. inversion H; subst; clear H.
      exists [], []. simpl. rewrite app_nil_r. repeat split.
      left. by destruct out' as [|[a ?] ?].
Qed.

(** The quiet-window loop ends: this much fuel is enough. *)
Lemma quiet_loop_total fuel qd eof : ∀ chunks t out,
  (length out + Z.to_nat (qd - t) + 1 ≤ fuel)%nat →
  is_Some (quiet_loop fuel qd eof chunks t out).
Proof.
  induction fuel as [|fuel IH]; intros chunks t out Hf; [lia|].
  rewrite quiet_loop_S.
  destruct (Z.ltb_spec t qd) as [Hlt|Hge]; [|by eexists].
  destruct (select t quiet_poll out eof) as [ready t1] eqn:Hs.
  assert (t ≤ t1 ≤ t + quiet_poll) as Ht1
    by (eapply select_time; [|exact Hs]; unfold quiet_poll; lia).
  destruct ready.
  - destruct (os_read t1 read_size out) as [raw out1] eqn:Hr.
    destruct raw as [|b raw]; [by eexists|].
    apply IH. apply os_read_shorter in Hr. simpl in Hr. lia.
  - apply select_idle in Hs. apply IH. unfold quiet_poll in *. lia.
Qed.

Lemma quiet_loop_mono fuel qd eof : ∀ chunks t out r fuel',
  quiet_loop fuel qd eof chunks t out = Some r → (fuel ≤ fuel')%nat →
  quiet_loop fuel' qd eof chunks t out = Some r.
Proof.
  induction fuel as [|fuel IH]; intros chunks t out r fuel' H Hle; [discriminate|].
  destruct fuel' as [|fuel']; [lia|].
  rewrite quiet_loop_S in *.
  destruct (t <? qd); [|done].
  destruct (select t quiet_poll out eof) as [[] t1].
  - destruct (os_read t1 read_size out) as [[|b raw] out1]; [done|].
    eapply IH; eauto; lia.
  - eapply IH; eauto; lia.
Qed.

(** What the reader's outer loop guarantees when it ends. *)
Lemma read_loop_spec fuel deadline eof : ∀ chunks t out chunks' t' out' why,
  read_loop fuel deadline eof chunks t out = Some (chunks', t', out', why) →
  t ≤ t' ∧ collated out out' chunks chunks' ∧
  match why with
  | StopDeadline => deadline ≤ t'
  | StopEOF => out' = [] ∧ ∃ e, eof = Some e ∧ e ≤ t'
  | StopGap => chunks' ≠ []
  end.
Proof.
  induction fuel as [|fuel IH]; intros chunks t out chunks' t' out' why H; [discriminate|].
  rewrite read_loop_S in H.
  destruct (Z.ltb_spec t deadline) as [Hlt|Hge].
  - destruct (select _ _ out eof) as [ready t1] eqn:Hs.
    assert (t ≤ t1) as Ht1
      by (eapply select_time; [|exact Hs]; unfold outer_poll, min_remaining; lia).
    destruct ready.
    + destruct (os_read t1 read_size out) as [raw out1] eqn:Hr.
      destruct raw as [|b raw].
      * inversion H; subst; clear H.
        destruct (ready_empty_read _ _ _ _ _ _ Hs Hr) as (-> & -> & He).
        split; [lia|]. split; [apply collated_refl|]. by split.
      * destruct (quiet_loop _ _ _ _ _ _) as [[[[chunks2 t2] out2] ex]|] eqn:Hq;
          [|discriminate].
        apply quiet_loop_spec in Hq as (Ht2 & Hc2 & _ & _).
        apply IH in H as (Ht & Hc & Hw).
        split; [lia|]. split; [|done].
        eapply collated_read; eauto. eapply collated_trans; eauto.
    + destruct chunks as [|c chunks].
      * apply IH in H as (Ht & Hc & Hw). split; [lia|]. by split.
      * inversion H; subst; clear H.
        split; [lia|]. split; [apply collated_refl|]. done.
  - inversion H; subst; clear H.
    split; [lia|]. split; [apply collated_refl|]. lia.
Qed.

(** The reader ends: [reader_fuel] is enough. *)
Lemma read_loop_total fuel deadline eof : ∀ chunks t out,
  (length out + Z.to_nat (deadline - t) + Z.to_nat quiet_window + 2 ≤ fuel)%nat →
  is_Some (read_loop fuel deadline eof chunks t out).
Proof.
  induction fuel as [|fuel IH]; intros chunks t out Hf; [lia|].
  rewrite read_loop_S.
  destruct (Z.ltb_spec t deadline) as [Hlt|Hge]; [|by eexists].
  destruct (select _ _ out eof) as [ready t1] eqn:Hs.
  assert (t ≤ t1) as Ht1
    by (eapply select_time; [|exact Hs]; unfold outer_poll, min_remaining; lia).
  destruct ready.
  - destruct (os_read t1 read_size out) as [raw out1] eqn:Hr.
    destruct raw as [|b raw]; [by eexists|].
    apply os_read_shorter in Hr. simpl in Hr.
    destruct (quiet_loop_total fuel (t1 + quiet_window) eof
                (chunks ++ [decode (b :: raw)]) t1 out1) as [[[[chunks2 t2] out2] ex] Hq].
    { unfold quiet_window in *. lia. }
    rewrite Hq.
    apply quiet_loop_spec in Hq as (Ht2 & Hc2 & _ & _).
    apply collated_length in Hc2.
    apply IH. lia.
  - destruct chunks as [|c chunks]; [|by eexists].
    apply select_idle in Hs. apply IH.
    unfold outer_poll, min_remaining in *. lia.
Qed.

Lemma read_loop_mono fuel deadline eof : ∀ chunks t out r fuel',
  read_loop fuel deadline eof chunks t out = Some r → (fuel ≤ fuel')%nat →
  read_loop fuel' deadline eof chunks t out = Some r.
Proof.
  induction fuel as [|fuel IH]; intros chunks t out r fuel' H Hle; [discriminate|].
  destruct fuel' as [|fuel']; [lia|].
  rewrite read_loop_S in *.
  destruct (t <? deadline); [|done].
  destruct (select _ _ out eof) as [[] t1].
  - destruct (os_read t1 read_size out) as [[|b raw] out1]; [done|].
    destruct (quiet_loop fuel _ _ _ _ _) as [[[[chunks2 t2] out2] ex]|] eqn:Hq;
      [|discriminate].
    rewrite (quiet_loop_mono _ _ _ _ _ _ _ fuel' Hq) by lia.
    eapply IH; eauto; lia.
  - destruct chunks; [|done]. eapply IH; eauto; lia.
Qed.

(** Any run of the loop that ends gives the answer of [read_response]. *)
Lemma read_response_of_loop fuel timeout eof now out chunks t out' why :
  read_loop fuel (now + 1000 * timeout) eof [] now out = Some (chunks, t, out', why) →
  read_response timeout eof now out = Some (join chunks, t, out', why).
Proof.
  intros H. unfold read_response.
  set (deadline := now + 1000 * timeout) in *.
  destruct (read_loop_total (reader_fuel deadline now out) deadline eof [] now out)
    as [r Hr]; [unfold reader_fuel; lia|].
  pose proof (read_loop_mono _ _ _ _ _ _ _
    (Nat.max fuel (reader_fuel deadline now out)) H ltac:(lia)) as H1.
  pose proof (read_loop_mono _ _ _ _ _ _ _
    (Nat.max fuel (reader_fuel deadline now out)) Hr ltac:(lia)) as H2.
  rewrite H1 in H2. inversion H2; subst. by rewrite Hr.
Qed.

Lemma read_response_total timeout eof now out :
  is_Some (read_response timeout eof now out).
Proof.
  unfold read_response.
  destruct (read_loop_total (reader_fuel (now + 1000 * timeout) now out)
              (now + 1000 * timeout) eof [] now out) as [[[[c t] o] w] Hr];
    [unfold reader_fuel; lia|].
  rewrite Hr. by eexists.
Qed.

End ReaderFacts.

Module ReaderShift.

Import PipeFacts ReaderFacts.

Lemma select_delay δ t d out eof :
  select (t + δ) d (delay δ out) (delay_eof δ eof) =
  ((select t d out eof).1, (select t d out eof).2 + δ).
Proof.
  unfold select.
  assert (∀ a, (a + δ <? t + δ + d) = (a <? t + d)) as Hb.
  { intros a. destruct (Z.ltb_spec (a + δ) (t + δ + d)), (Z.ltb_spec a (t + d)); lia. }
  destruct out as [|[a b] out]; simpl.
  - destruct eof as [e|]; simpl; [|f_equal; lia].
    rewrite Hb. destruct (e <? t + d); simpl; f_equal; lia.
  - rewrite Hb. destruct (a <? t + d); simpl; f_equal; lia.
Qed.

Lemma arrived_delay δ t out : arrived (t + δ) (delay δ out) = delay δ (arrived t out).
Proof.
  induction out as [|[a b] out IH]; simpl; [done|].
  assert ((a + δ <=? t + δ) = (a <=? t)) as ->.
  { destruct (Z.leb_spec (a + δ) (t + δ)), (Z.leb_spec a t); lia. }
  destruct (a <=? t); simpl; [by rewrite IH|done].
Qed.

Lemma os_read_delay δ t n out :
  os_read (t + δ) n (delay δ out) =
  ((os_read t n out).1, delay δ (os_read t n out).2).
Proof.
  unfold os_read. simpl. rewrite arrived_delay. unfold delay.
  rewrite <- !fmap_take, !length_fmap, <- fmap_drop. f_equal.
  rewrite <- list_fmap_compose. done.
Qed.

(** The quiet-window loop does not depend on the origin of time. *)
Lemma quiet_loop_delay δ fuel qd eof : ∀ chunks t out,
  quiet_loop fuel (qd + δ) (delay_eof δ eof) chunks (t + δ) (delay δ out) =
  shift_result δ <$> quiet_loop fuel qd eof chunks t out.
Proof.
  induction fuel as [|fuel IH]; intros chunks t out; [done|].
  rewrite !quiet_loop_S.
  assert ((t + δ <? qd + δ) = (t <? qd)) as ->.
  { destruct (Z.ltb_spec (t + δ) (qd + δ)), (Z.ltb_spec t qd); lia. }
  destruct (t <? qd); [|done].
  rewrite select_delay. destruct (select t quiet_poll out eof) as [ready t1]. cbn [fst snd].
  destruct ready; [|apply IH].
  rewrite os_read_delay. destruct (os_read t1 read_size out) as [raw out1]. cbn [fst snd].
  destruct raw; [done|apply IH].
Qed.

(** Nor does the reader's outer loop. *)
Lemma read_loop_delay δ fuel deadline eof : ∀ chunks t out,
  read_loop fuel (deadline + δ) (delay_eof δ eof) chunks (t + δ) (delay δ out) =
  shift_result δ <$> read_loop fuel deadline eof chunks t out.
Proof.
  induction fuel as [|fuel IH]; intros chunks t out; [done|].
  rewrite !read_loop_S.
  assert ((t + δ <? deadline + δ) = (t <? deadline)) as ->.
  { destruct (Z.ltb_spec (t + δ) (deadline + δ)), (Z.ltb_spec t deadline); lia. }
  destruct (t <? deadline); [|done].
  replace (deadline + δ - (t + δ)) with (deadline - t) by lia.
  rewrite select_delay. destruct (select t _ out eof) as [ready t1]. cbn [fst snd].
  destruct ready.
  - rewrite os_read_delay. destruct (os_read t1 read_size out) as [raw out1]. cbn [fst snd].
    destruct raw as [|b raw]; [done|].
    replace (t1 + δ + quiet_window) with (t1 + quiet_window + δ) by lia.
    rewrite quiet_loop_delay.
    destruct (quiet_loop fuel _ eof _ t1 out1) as [[[[chunks2 t2] out2] ex]|]; [|done].
    simpl. apply IH.
  - destruct chunks; [apply IH|done].
Qed.

(** Polling an empty-handed reader until the first byte arrives changes
    nothing but the instant at which it is read. *)
Lemma read_loop_wait deadline eof a b rest r :
  a < deadline →
  ∀ k t fuel, (Z.to_nat (a - t) ≤ k)%nat → t ≤ a →
  read_loop fuel deadline eof [] a ((a, b) :: rest) = Some r →
  ∃ fuel', read_loop fuel' deadline eof [] t ((a, b) :: rest) = Some r.
Proof.
  intros Ha. induction k as [|k IH]; intros t fuel Hk Ht H.
  - replace t with a by lia. eauto.
  - destruct fuel as [|fuel]; [discriminate|].
    destruct (select t (Z.min outer_poll (Z.max min_remaining (deadline - t)))
                ((a, b) :: rest) eof) as [ready t1] eqn:Hs.
    destruct ready.
    + exists (S fuel). rewrite read_loop_S in *.
      destruct (Z.ltb_spec a deadline); [|lia].
      destruct (Z.ltb_spec t deadline); [|lia].
      rewrite Hs. revert H Hs. unfold select, outer_poll, min_remaining.
      destruct (Z.ltb_spec a (a + Z.min 250 (Z.max 50 (deadline - a)))); [|lia].
      destruct (Z.ltb_spec a (t + Z.min 250 (Z.max 50 (deadline - t))));
        [|discriminate].
      intros Hrun Hsel. inversion Hsel; subst.
      replace (Z.max t a) with a by lia.
      replace (Z.max a a) with a in Hrun by lia. exact Hrun.
    + pose proof (select_idle _ _ _ _ _ Hs) as ->.
      assert (t + Z.min outer_poll (Z.max min_remaining (deadline - t)) ≤ a) as Hle.
      { revert Hs. unfold select.
        destruct (Z.ltb_spec a (t + Z.min outer_poll (Z.max min_remaining (deadline - t))));
          [discriminate|]. lia. }
      destruct (IH (t + Z.min outer_poll (Z.max min_remaining (deadline - t))) (S fuel))
        as [fuel' Hf]; [unfold outer_poll, min_remaining in *; lia|lia|done|].
      exists (S fuel'). rewrite read_loop_S.
      destruct (Z.ltb_spec t deadline); [|lia].
      by rewrite Hs.
Qed.

End ReaderShift.

Module ReaderClaims.

Import PipeFacts ReaderFacts ReaderShift.

Lemma read_loop_bound fuel deadline eof : ∀ chunks t out chunks' t' out' why,
  read_loop fuel deadline eof chunks t out = Some (chunks', t', out', why) →
  t' = t ∨ t' < deadline + min_remaining + quiet_window + quiet_poll.
Proof.
  induction fuel as [|fuel IH]; intros chunks t out chunks' t' out' why H; [discriminate|].
  rewrite read_loop_S in H.
  destruct (Z.ltb_spec t deadline) as [Hlt|Hge]; [|inversion H; by left].
  destruct (select _ _ out eof) as [ready t1] eqn:Hs.
  assert (t ≤ t1 < deadline + min_remaining) as Ht1.
  { eapply select_time in Hs; unfold outer_poll, min_remaining in *; lia. }
  right. destruct ready.
  - destruct (os_read t1 read_size out) as [[|b raw] out1] eqn:Hr.
    + inversion H; subst. unfold quiet_window, quiet_poll. lia.
    + destruct (quiet_loop _ _ _ _ _ _) as [[[[chunks2 t2] out2] ex]|] eqn:Hq;
        [|discriminate].
      apply quiet_loop_spec in Hq as (Ht2 & _ & Hb & _).
      assert (t2 < deadline + min_remaining + quiet_window + quiet_poll)
        by (unfold quiet_window, quiet_poll in *; lia).
      apply IH in H as [->|?]; lia.
  - destruct chunks as [|c chunks].
    + apply IH in H as [->|?]; unfold quiet_window, quiet_poll in *; lia.
    + inversion H; subst. unfold quiet_window, quiet_poll. lia.
Qed.

(** C2, as the code has it.  The quiet-window loop of [_read_response]
    always ends.  It appends what arrives: the bytes it took from the pipe
    are appended to the chunks collected so far, in order and without loss,
    and when it ends no byte that had arrived before its last poll returned
    is left in the pipe, unless its last read filled the buffer of 4096
    bytes.  Its deadline is the one fixed when the loop was entered and no
    arrival moves it: unless the stream closes, the loop is left at the
    first poll that returns at or after that deadline, so less than one
    poll interval after it, however recently data arrived. *)
Theorem quiet_window_is_fixed fuel qd eof chunks t out :
  (length out + Z.to_nat (qd - t) + 1 ≤ fuel)%nat →
  ∃ chunks' t' out' ex,
    quiet_loop fuel qd eof chunks t out = Some (chunks', t', out', ex) ∧
    (∃ pieces consumed,
       chunks' = chunks ++ map decode pieces ∧ out = consumed ++ out' ∧
       consumed.*2 = concat pieces ∧
       (qd ≤ t ∧ pieces = [] ∨ t < qd ∧ drained t' out' pieces)) ∧
    t ≤ t' ∧ (t' = t ∨ t' < qd + quiet_poll) ∧
    match ex with
    | QuietElapsed => qd ≤ t'
    | QuietEOF => t < qd ∧ out' = [] ∧ ∃ e, eof = Some e ∧ e ≤ t'
    end.
Proof.
  intros Hf.
  destruct (quiet_loop_total fuel qd eof chunks t out Hf) as [[[[chunks' t'] out'] ex] H].
  exists chunks', t', out', ex. split; [done|].
  split; [|apply quiet_loop_spec in H; tauto].
  destruct (Z.lt_ge_cases t qd) as [Hlt|Hge].
  - destruct (quiet_loop_drains _ _ _ _ _ _ _ _ _ _ H Hlt)
      as (pieces & consumed & Hc & Ho & Hb & Hd).
    exists pieces, consumed. by eauto 10.
  - destruct fuel as [|fuel]; [discriminate|].
    rewrite quiet_loop_S in H. destruct (Z.ltb_spec t qd); [lia|].
    inversion H; subst. exists [], []. simpl. rewrite app_nil_r. by eauto 10.
Qed.

Lemma quiet_window_is_fixed_witness :
  ∃ chunks' t' out' ex,
    quiet_loop 602 (0 + quiet_window) None [lit "A"] 0 a_then_b
      = Some (chunks', t', out', ex) ∧
    (∃ pieces consumed,
       chunks' = [lit "A"] ++ map decode pieces ∧ a_then_b = consumed ++ out' ∧
       consumed.*2 = concat pieces ∧
       (0 + quiet_window ≤ 0 ∧ pieces = [] ∨
        0 < 0 + quiet_window ∧ drained t' out' pieces)) ∧
    0 ≤ t' ∧ (t' = 0 ∨ t' < 0 + quiet_window + quiet_poll) ∧
    match ex with
    | QuietElapsed => 0 + quiet_window ≤ t'
    | QuietEOF => 0 < 0 + quiet_window ∧ out' = [] ∧ ∃ e, None = Some e ∧ e ≤ t'
    end.
Proof.
  apply (quiet_window_is_fixed 602 (0 + quiet_window) None [lit "A"] 0 a_then_b).
  vm_compute. lia.
Defined.

(** C2, as the claim has it, fails.  The loop is entered at instant 0 with
    "A" collected and the quiet deadline at 600.  "B" arrives at 450 and is
    appended, but the deadline stays at 600: the loop is left at 650, by
    its deadline and on a stream that is still open, 200 ms after the last
    arrival and not the 600 ms a restarted window would need. *)
Lemma quiet_window_not_restarted :
  quiet_loop 10 (0 + quiet_window) None [lit "A"] 0 a_then_b
    = Some ([lit "A"; lit "B"], 650, [], QuietElapsed)
  ∧ ¬ (450 + quiet_window ≤ 650).
Proof. split; [vm_compute; reflexivity | unfold quiet_window; lia]. Qed.

Lemma ab_then_cd_delay a : ab_then_cd a = delay a (ab_then_cd 0).
Proof.
  unfold ab_then_cd, delay, emit. simpl.
  by replace (0 + 300 + a) with (a + 300) by lia.
Qed.

Lemma ab_then_cd_read D :
  0 < D →
  ∃ t' why, read_loop 10 D None [] 0 (ab_then_cd 0)
              = Some ([lit "AB"; lit "CD"], t', [], why).
Proof.
  intros HD. rewrite read_loop_S.
  destruct (Z.ltb_spec 0 D); [|lia].
  assert (select 0 (Z.min outer_poll (Z.max min_remaining (D - 0))) (ab_then_cd 0) None
          = (true, 0)) as ->.
  { unfold select, ab_then_cd, outer_poll, min_remaining. simpl.
    destruct (Z.ltb_spec 0 (0 + Z.min 250 (Z.max 50 (D - 0)))); [done|lia]. }
  replace (os_read 0 read_size (ab_then_cd 0))
    with (bytes_of "AB", emit 300 (bytes_of "CD")) by (vm_compute; reflexivity).
  replace (quiet_loop 9 (0 + quiet_window) None ([] ++ [decode (bytes_of "AB")]) 0
             (emit 300 (bytes_of "CD")))
    with (Some ([lit "AB"; lit "CD"], 600, @nil (Z * byte), QuietElapsed))
    by (vm_compute; reflexivity).
  cbn iota beta.
  rewrite read_loop_S.
  destruct (Z.ltb_spec 600 D); [|eauto].
  assert (∀ d, select 600 d [] None = (false, 600 + d)) as -> by done.
  eauto.
Qed.

(** C4.  The child writes "AB" (at once or after any delay shorter than the
    timeout), is silent for 0.3 s, writes "CD" and is silent from then on,
    its stdout staying open.  [_read_response] returns the one text "ABCD"
    and leaves nothing in the pipe. *)
Theorem quiet_window_collation now d0 timeout_seconds :
  0 ≤ d0 → d0 < 1000 * timeout_seconds →
  ∃ t' why,
    read_response timeout_seconds None now (ab_then_cd (now + d0))
      = Some (lit "ABCD", t', [], why).
Proof.
  intros H0 HT.
  set (a := now + d0). set (D := now + 1000 * timeout_seconds).
  destruct (ab_then_cd_read (D - a)) as (t' & why & Hrun); [unfold a, D; lia|].
  pose proof (read_loop_delay a 10 (D - a) None [] 0 (ab_then_cd 0)) as Hd.
  rewrite Hrun, <- ab_then_cd_delay in Hd.
  replace (D - a + a) with D in Hd by lia.
  replace (0 + a) with a in Hd by lia.
  change (delay_eof a None) with (@None Z) in Hd.
  cbv [fmap option_fmap option_map shift_result fst snd delay map] in Hd.
  destruct (read_loop_wait D None a "A"%byte
              (tail (ab_then_cd a)) _ ltac:(unfold a, D; lia)
              (Z.to_nat (a - now)) now 10 ltac:(lia) ltac:(unfold a; lia) Hd)
    as [fuel' Hw].
  exists (t' + a), why.
  apply (read_response_of_loop fuel' timeout_seconds None now (ab_then_cd a)
           [lit "AB"; lit "CD"]). exact Hw.
Qed.

Lemma quiet_window_collation_witness :
  ∃ t' why,
    read_response 30 None 0 (ab_then_cd (0 + 0)) = Some (lit "ABCD", t', [], why).
Proof. apply (quiet_window_collation 0 0 30); lia. Defined.



End ReaderClaims.

(** * Facts about process termination *)

Module ProcessFacts.

Lemma reached_mono o t t' : t ≤ t' → reached o t = true → reached o t' = true.
Proof.
  destruct o as [e|]; simpl; [|done].
  intros Ht He. apply Z.leb_le in He. apply Z.leb_le. lia.
Qed.

Lemma exited_mono p t t' : t ≤ t' → exited p t = true → exited p t' = true.
Proof. apply reached_mono. Qed.

Lemma terminated_mono p t t' : t ≤ t' → terminated p t → terminated p t'.
Proof.
  intros Ht [Hex | (Hk & e & He & Hle)].
  - left. by eapply exited_mono.
  - right. split; [done|]. exists e. split; [done|lia].
Qed.

Lemma terminate_process_exited p now :
  exited p now = true → terminate_process p now = (p, now).
Proof. unfold terminate_process. by intros ->. Qed.

Lemma terminate_process_pid p now : pid (terminate_process p now).1 = pid p.
Proof.
  unfold terminate_process. destruct (exited p now); [done|].
  destruct (earliest _ _) as [e|]; [destruct (e <=? now + grace)|]; done.
Qed.

(** Unless the process has exited, it and the SIGTERM will not make it
    exit before now. *)
Lemma exit_after_now p now e :
  exited p now = false →
  earliest (exits_at p)
    match term_delay p with
    | Some d => Some (now + Z.max 0 d)
    | None => None
    end = Some e →
  now ≤ e.
Proof.
  unfold exited. intros Hex.
  destruct (exits_at p) as [x|], (term_delay p) as [d|]; simpl in *;
    intros He; inversion He; subst; try apply Z.leb_gt in Hex; lia.
Qed.

(** [_terminate_process] returns within the grace period. *)
Lemma terminate_process_time p now :
  now ≤ (terminate_process p now).2 ≤ now + grace.
Proof.
  unfold terminate_process.
  destruct (exited p now) eqn:Hex; [simpl; unfold grace; lia|].
  destruct (earliest _ _) as [e|] eqn:He.
  - apply exit_after_now in He; [|done].
    destruct (Z.leb_spec e (now + grace)); simpl; unfold grace in *; lia.
  - simpl. unfold grace. lia.
Qed.

(** [_terminate_process] leaves the process gone, or killed and about to
    go. *)
Lemma terminate_process_terminated p now :
  terminated (terminate_process p now).1 (terminate_process p now).2.
Proof.
  unfold terminate_process.
  destruct (exited p now) eqn:Hex; [by left|].
  destruct (earliest _ _) as [e|] eqn:He.
  - destruct (Z.leb_spec e (now + grace)); simpl.
    + left. unfold exited. simpl. apply Z.leb_le. lia.
    + right. simpl. split; [by rewrite last_app|].
      eexists. split; [done|]. lia.
  - right. simpl. split; [by rewrite last_app|]. eexists. split; [done|]. lia.
Qed.

(** C8, as the code has it.  [_terminate_process] returns within the
    grace period of three seconds, and when it returns the process is gone
    or has just been force-killed.  A process that had already exited is
    left as it is: no signal, no wait.  A running one gets SIGTERM; if it
    exits, on its own or because of the signal, within the grace period,
    the call returns at that instant with the process gone and sends
    nothing more.  Otherwise the call sends SIGKILL when the grace period
    ends and returns at once, without waiting again: from then on the
    process is certain to go, and it is gone once the kill has taken
    effect. *)
Theorem terminate_within_grace p now :
  now ≤ (terminate_process p now).2 ≤ now + grace ∧
  terminated (terminate_process p now).1 (terminate_process p now).2 ∧
  if exited p now then terminate_process p now = (p, now)
  else ∃ sent,
    signals (terminate_process p now).1 = signals p ++ SIGTERM :: sent ∧
    match sent with
    | [] =>
      (* it went away in time *)
      exited (terminate_process p now).1 (terminate_process p now).2 = true ∧
      (exits_at p = Some (terminate_process p now).2 ∨
       ∃ d, term_delay p = Some d ∧ (terminate_process p now).2 = now + Z.max 0 d)
    | _ :: _ =>
      (* it would have outlived the grace period *)
      sent = [SIGKILL] ∧ (terminate_process p now).2 = now + grace ∧
      reached (exits_at p) (now + grace) = false ∧
      match term_delay p with Some d => grace < d | None => True end ∧
      ∃ e, exits_at (terminate_process p now).1 = Some e ∧
           now + grace ≤ e ≤ now + grace + Z.max 0 (kill_delay p)
    end.
Proof.
  split; [apply terminate_process_time|].
  split; [apply terminate_process_terminated|].
  unfold terminate_process, exited, killed_at.
  destruct (reached (exits_at p) now) eqn:Hex; [done|].
  assert (∀ x, exits_at p = Some x → now < x) as Hlater.
  { intros x Hx. rewrite Hx in Hex. simpl in Hex. apply Z.leb_gt in Hex. lia. }
  destruct (exits_at p) as [x|] eqn:Hx, (term_delay p) as [d|] eqn:Hd; simpl;
    try specialize (Hlater x eq_refl).
  - destruct (Z.leb_spec (Z.min x (now + Z.max 0 d)) (now + grace)); simpl.
    + exists []. split; [done|]. split; [apply Z.leb_le; lia|].
      destruct (Z.le_ge_cases x (now + Z.max 0 d)).
      * left. f_equal. lia.
      * right. exists d. split; [done|lia].
    + exists [SIGKILL]. split; [done|]. split; [done|]. split; [done|].
      split; [apply Z.leb_gt; lia|]. split; [unfold grace in *; lia|].
      eexists. split; [done|]. lia.
  - destruct (Z.leb_spec x (now + grace)); simpl.
    + exists []. split; [done|]. split; [apply Z.leb_le; lia|]. by left.
    + exists [SIGKILL]. split; [done|]. split; [done|]. split; [done|].
      split; [done|]. split; [done|]. eexists. split; [done|]. lia.
  - destruct (Z.leb_spec (now + Z.max 0 d) (now + grace)); simpl.
    + exists []. split; [done|]. split; [apply Z.leb_le; lia|]. right. by exists d.
    + exists [SIGKILL]. split; [done|]. split; [done|]. split; [done|].
      split; [done|]. split; [unfold grace in *; lia|]. eexists. split; [done|]. lia.
  - exists [SIGKILL]. split; [done|]. split; [done|]. split; [done|].
    split; [done|]. split; [done|]. eexists. split; [done|]. lia.
Qed.

(** C8, as the claim has it, fails.  A process that ignores SIGTERM and
    takes 40 ms to go once it is killed is terminated at instant 0: the
    call sends SIGTERM, waits the three seconds, sends SIGKILL and returns
    at 3000, when [poll] still finds the process running; it is gone at
    3040, and the call has not waited for that. *)
Lemma kill_is_not_waited_for :
  terminate_process (popen 0 stubborn) 0
    = (with_fate (popen 0 stubborn) 3040 [SIGTERM; SIGKILL], 3000)
  ∧ exited (terminate_process (popen 0 stubborn) 0).1
           (terminate_process (popen 0 stubborn) 0).2 = false
  ∧ exited (terminate_process (popen 0 stubborn) 0).1 3040 = true.
Proof. repeat split; vm_compute; reflexivity. Qed.

End ProcessFacts.

Module AdapterFacts.

Import ProcessFacts.

Ltac munfold :=
  unfold mbind, M_bind, mret, M_ret, bind, ret, gets, modify, raise, diverge in *.

(** What one [_terminate_process] step does to the adapter. *)
Lemma terminate_process_now_run p st :
  ∃ evs,
    terminate_process_now p st =
    (Returned tt,
     add_reaped (terminate_process p (clock st)).1
       (set_clock (terminate_process p (clock st)).2 (add_log evs st))).
Proof.
  unfold terminate_process_now.
  destruct (terminate_process p (clock st)) as [p' t']. simpl. eauto.
Qed.

Lemma terminate_process_now_exited p st :
  exited p (clock st) = true →
  terminate_process_now p st = (Returned tt, add_reaped p (set_clock (clock st) (add_log [] st))).
Proof.
  intros H. unfold terminate_process_now.
  rewrite (terminate_process_exited _ _ H). by rewrite drop_all.
Qed.

(** What [install_session] does. *)
Lemma install_session_run env key st :
  install_session env key st =
  match env (spawned st) with
  | Some c =>
    let s := {| session_key := key; process := popen (spawned st) c;
                last_used := clock st |} in
    (Returned s,
     register key s
       (add_log [EvSpawn (spawned st)] (set_spawned (S (spawned st)) st)))
  | None => (Raised OSError, set_spawned (S (spawned st)) st)
  end.
Proof.
  unfold install_session, spawn_process, put_session. munfold.
  destruct (env (spawned st)); done.
Qed.

Lemma key_consistent_insert key s m :
  session_key s = key → key_consistent m → key_consistent (<[key := s]> m).
Proof. intros Hk Hm. by apply map_Forall_insert_2. Qed.

Lemma key_consistent_delete key m :
  key_consistent m → key_consistent (delete key m).
Proof. apply map_Forall_delete. Qed.

Lemma install_session_consistent env key st :
  key_consistent (sessions st) →
  key_consistent (sessions (install_session env key st).2) ∧
  ∀ s, (install_session env key st).1 = Returned s →
       session_key s = key ∧ sessions (install_session env key st).2 !! key = Some s.
Proof.
  intros Hm. rewrite install_session_run.
  destruct (env (spawned st)) as [c|]; simpl.
  - split; [by apply key_consistent_insert|].
    intros s Hs. inversion Hs; subst. split; [done|]. by rewrite lookup_insert_eq.
  - split; [done|]. intros s Hs. discriminate.
Qed.

(** [_get_or_create_session] keeps the registry consistent and returns the
    session registered under the key. *)
Lemma get_or_create_consistent env key st :
  key_consistent (sessions st) →
  key_consistent (sessions (get_or_create_session env key st).2) ∧
  ∀ s, (get_or_create_session env key st).1 = Returned s →
       session_key s = key ∧
       sessions (get_or_create_session env key st).2 !! key = Some s.
Proof.
  intros Hm. unfold get_or_create_session, with_sessions_lock. munfold. simpl.
  destruct (sessions st !! key) as [s0|] eqn:Hk.
  - destruct (exited (process s0) (clock st)) eqn:Hex; simpl.
    + destruct (terminate_process_now_run (process s0) (add_log [EvAcquire] st))
        as [evs ->].
      match goal with |- context [install_session env key ?x] =>
        pose proof (install_session_consistent env key x Hm) as [H1 H2];
        destruct (install_session env key x) as [r st'] end.
      simpl in *. split; [done|]. destruct r; try done.
    + split; [done|]. intros s Hs. inversion Hs; subst.
      split; [by apply (Hm key s)|done].
  - match goal with |- context [install_session env key ?x] =>
      pose proof (install_session_consistent env key x Hm) as [H1 H2];
      destruct (install_session env key x) as [r st'] end.
    simpl in *. split; [done|]. destruct r; try done.
Qed.

Lemma replace_consistent env key st :
  key_consistent (sessions st) →
  key_consistent (sessions (replace_session env key st).2) ∧
  ∀ s, (replace_session env key st).1 = Returned s →
       session_key s = key ∧
       sessions (replace_session env key st).2 !! key = Some s.
Proof.
  intros Hm. unfold replace_session, with_sessions_lock. munfold. simpl.
  destruct (sessions st !! key) as [s0|] eqn:Hk.
  - destruct (terminate_process_now_run (process s0) (add_log [EvAcquire] st))
      as [evs ->].
    unfold put_session. munfold.
    match goal with |- context [install_session env key ?x] =>
      assert (key_consistent (sessions x)) as Hx
        by (apply key_consistent_insert; [exact (Hm key s0 Hk)|done]);
      pose proof (install_session_consistent env key x Hx) as [H1 H2];
      destruct (install_session env key x) as [r st'] end.
    simpl in *. split; [done|]. destruct r; try done.
  - match goal with |- context [install_session env key ?x] =>
      pose proof (install_session_consistent env key x Hm) as [H1 H2];
      destruct (install_session env key x) as [r st'] end.
    simpl in *. split; [done|]. destruct r; try done.
Qed.

End AdapterFacts.

Module RegistryFacts.

Import ProcessFacts AdapterFacts.

Lemma terminate_session_run key st :
  ∃ st', terminate_session key st = (Returned tt, st') ∧
         sessions st' = delete key (sessions st).
Proof.
  unfold terminate_session, with_sessions_lock, pop_session. munfold. simpl.
  destruct (sessions st !! key) as [s|].
  - destruct (terminate_process_now_run (process s)
      (add_log [EvRelease] (unregister key (add_log [EvAcquire] st))))
      as [evs ->]. eauto.
  - eauto.
Qed.

Lemma for_each_terminate_run keys : ∀ st,
  ∃ st', for_each keys terminate_session st = (Returned tt, st') ∧
         sessions st' = foldl (λ m k, delete k m) (sessions st) keys.
Proof.
  induction keys as [|k keys IH]; intros st; simpl; [by eexists|].
  munfold. destruct (terminate_session_run k st) as (st1 & -> & H1).
  destruct (IH st1) as (st2 & -> & H2). exists st2. split; [done|]. by rewrite H2, H1.
Qed.

Lemma key_consistent_deletes keys : ∀ m,
  key_consistent m → key_consistent (foldl (λ m k, delete k m) m keys).
Proof.
  induction keys as [|k keys IH]; intros m Hm; simpl; [done|].
  apply IH. by apply key_consistent_delete.
Qed.

Lemma scan_stale_run st :
  scan_stale st =
  (Returned (stale_keys (idle_timeout_seconds st) (clock st) (key_order st) (sessions st)),
   add_log [EvRelease] (add_log [EvAcquire] st)).
Proof. reflexivity. Qed.

Lemma cleanup_tick_run st :
  ∃ st', cleanup_tick st = (Returned tt, st') ∧
    sessions st' = foldl (λ m k, delete k m) (sessions st)
                     (stale_keys (idle_timeout_seconds st) (clock st) (key_order st) (sessions st)).
Proof.
  unfold cleanup_tick, evict. munfold. rewrite scan_stale_run.
  match goal with |- context [for_each ?ks _ ?x] =>
    destruct (for_each_terminate_run ks x) as (st' & -> & H) end.
  eauto.
Qed.

Lemma cleanup_worker_consistent ticks : ∀ st,
  key_consistent (sessions st) →
  key_consistent (sessions (cleanup_worker ticks st).2).
Proof.
  induction ticks as [|ticks IH]; intros st Hm; [done|].
  simpl. munfold. simpl.
  match goal with |- context [cleanup_tick ?x] =>
    destruct (cleanup_tick_run x) as (st' & -> & H) end.
  apply IH. rewrite H. by apply key_consistent_deletes.
Qed.

Lemma close_consistent reaper_busy st :
  key_consistent (sessions st) → key_consistent (sessions (close reaper_busy st).2).
Proof.
  intros Hm. unfold close, with_sessions_lock. munfold. simpl.
  match goal with |- context [for_each ?ks _ ?x] =>
    destruct (for_each_terminate_run ks x) as (st' & -> & H) end.
  simpl. rewrite H. by apply key_consistent_deletes.
Qed.

Lemma ask_S env fuel key prompt timeout_seconds :
  ask env (S fuel) key prompt timeout_seconds =
  (session ← get_or_create_session env key;
   now ← gets clock;
   if exited (process session) now then
     replace_session env key;;
     ask env fuel key prompt timeout_seconds
   else
     put_session key {| session_key := session_key session;
                        process := process session; last_used := now |};;
     match stdin_write (process session) now (prompt ++ [10%N]) with
     | None => raise BrokenPipeError
     | Some p1 =>
       put_session key {| session_key := session_key session;
                          process := p1; last_used := now |};;
       modify (add_log [EvWrite (pid p1)]);;
       match read_response timeout_seconds (stdout_eof p1) now (stdout p1) with
       | None => diverge
       | Some (output, t, out', _) =>
         modify (set_clock t);;
         put_session key {| session_key := session_key session;
                            process := with_stdout p1 out'; last_used := t |};;
         mret (strip_or_placeholder output)
       end
     end).
Proof. reflexivity. Qed.

Lemma ask_consistent env fuel key prompt timeout_seconds : ∀ st,
  key_consistent (sessions st) →
  key_consistent (sessions (ask env fuel key prompt timeout_seconds st).2).
Proof.
  induction fuel as [|fuel IH]; intros st Hm; [done|].
  rewrite ask_S. munfold.
  destruct (get_or_create_consistent env key st Hm) as [H1 H2].
  destruct (get_or_create_session env key st) as [[session| |] st1]; simpl in *; try done.
  destruct (H2 session eq_refl) as [Hkey Hreg].
  destruct (exited (process session) (clock st1)).
  - destruct (replace_consistent env key st1 H1) as [H3 _].
    destruct (replace_session env key st1) as [[s'| |] st2]; simpl in *; try done.
    by apply IH.
  - unfold put_session. munfold. simpl.
    destruct (stdin_write _ _ _) as [p1|]; simpl.
    + destruct (read_response _ _ _ _) as [[[[output t] out'] why]|]; simpl.
      * repeat apply key_consistent_insert; done.
      * repeat apply key_consistent_insert; done.
    + by apply key_consistent_insert.
Qed.

Lemma serve_consistent env r st :
  key_consistent (sessions st) → key_consistent (sessions (serve env r st)).
Proof.
  intros Hm. destruct r; simpl.
  - by apply ask_consistent.
  - by apply get_or_create_consistent.
  - by apply replace_consistent.
  - destruct (terminate_session_run key st) as (st' & -> & Hs).
    simpl. rewrite Hs. by apply key_consistent_delete.
  - by apply cleanup_worker_consistent.
  - by apply close_consistent.
Qed.

(** C9.  In every state the adapter can reach from its construction by
    asks, session look-ups, replacements, evictions, reaper ticks and
    shutdown, each registry entry holds a session whose [session_key] is
    the key it is filed under.  Whenever [_get_or_create_session] or
    [_replace_session] returns a session for a key in such a state, that
    session carries the key and is the one now registered under it. *)
Theorem registry_keys_consistent env :
  (∀ rs idle interval now,
     key_consistent (sessions (serve_all env rs (init idle interval now))))
  ∧ (∀ st key s st',
       key_consistent (sessions st) →
       get_or_create_session env key st = (Returned s, st') →
       session_key s = key ∧ sessions st' !! key = Some s ∧
       key_consistent (sessions st'))
  ∧ (∀ st key s st',
       key_consistent (sessions st) →
       replace_session env key st = (Returned s, st') →
       session_key s = key ∧ sessions st' !! key = Some s ∧
       key_consistent (sessions st')).
Proof.
  split; [|split].
  - intros rs idle interval now. unfold serve_all.
    assert (key_consistent (sessions (init idle interval now))) as Hinit
      by apply map_Forall_empty.
    revert Hinit. generalize (init idle interval now).
    induction rs as [|r rs IH]; intros st Hm; simpl; [done|].
    apply IH. by apply serve_consistent.
  - intros st key s st' Hm Hrun.
    destruct (get_or_create_consistent env key st Hm) as [H1 H2].
    rewrite Hrun in *. simpl in *. destruct (H2 s eq_refl). done.
  - intros st key s st' Hm Hrun.
    destruct (replace_consistent env key st Hm) as [H1 H2].
    rewrite Hrun in *. simpl in *. destruct (H2 s eq_refl). done.
Qed.

Lemma registry_keys_consistent_witness :
  session_key {| session_key := u1; process := popen 0 (hello 0); last_used := 0 |} = u1 ∧
  sessions (get_or_create_session (always (hello 0)) u1 (init 900 30 0)).2 !! u1
    = Some {| session_key := u1; process := popen 0 (hello 0); last_used := 0 |} ∧
  key_consistent (sessions (get_or_create_session (always (hello 0)) u1 (init 900 30 0)).2).
Proof.
  apply (proj1 (proj2 (registry_keys_consistent (always (hello 0))))
           (init 900 30 0) u1).
  - apply map_Forall_empty.
  - vm_compute. reflexivity.
Defined.

End RegistryFacts.

(** * The order of the registry's keys *)

Module OrderFacts.

Import ProcessFacts AdapterFacts RegistryFacts.

Section Preserved.

(** A property of states that the registry's primitive steps preserve. *)
Variable I : State → Prop.
Hypothesis I_register : ∀ k s st, I st → I (register k s st).
Hypothesis I_unregister : ∀ k st, I st → I (unregister k st).
Hypothesis I_log : ∀ evs st, I st → I (add_log evs st).
Hypothesis I_clock : ∀ t st, I st → I (set_clock t st).
Hypothesis I_spawned : ∀ n st, I st → I (set_spawned n st).
Hypothesis I_reaped : ∀ p st, I st → I (add_reaped p st).

Local Hint Resolve I_register I_unregister I_log I_clock I_spawned I_reaped : core.

Lemma terminate_process_now_keeps p st : I st → I (terminate_process_now p st).2.
Proof.
  intros HI. destruct (terminate_process_now_run p st) as [evs ->]. simpl. auto.
Qed.

Lemma install_session_keeps env key st : I st → I (install_session env key st).2.
Proof.
  intros HI. rewrite install_session_run. destruct (env (spawned st)); simpl; auto.
Qed.

Lemma get_or_create_keeps env key st : I st → I (get_or_create_session env key st).2.
Proof.
  intros HI. unfold get_or_create_session, with_sessions_lock. munfold. simpl.
  destruct (sessions st !! key) as [s0|].
  - destruct (exited (process s0) (clock st)); simpl; [|auto].
    match goal with |- context [terminate_process_now ?p ?x] =>
      pose proof (terminate_process_now_keeps p x (I_log _ _ HI)) as H1;
      destruct (terminate_process_now p x) as [[[]| |] st1] eqn:Ht end;
      try (destruct (terminate_process_now_run (process s0) (add_log [EvAcquire] st))
             as [evs Hrun]; rewrite Hrun in Ht; discriminate).
    simpl in H1.
    pose proof (install_session_keeps env key st1 H1) as H2.
    destruct (install_session env key st1) as [r st2]. simpl in *. auto.
  - pose proof (install_session_keeps env key _ (I_log [EvAcquire] _ HI)) as H2.
    destruct (install_session env key _) as [r st2]. simpl in *. auto.
Qed.

Lemma replace_keeps env key st : I st → I (replace_session env key st).2.
Proof.
  intros HI. unfold replace_session, with_sessions_lock. munfold. simpl.
  destruct (sessions st !! key) as [s0|].
  - destruct (terminate_process_now_run (process s0) (add_log [EvAcquire] st))
      as [evs ->].
    unfold put_session. munfold.
    match goal with |- context [install_session env key ?x] =>
      assert (I x) as Hx by auto 10;
      pose proof (install_session_keeps env key x Hx) as H2;
      destruct (install_session env key x) as [r st2] end.
    simpl in *. auto.
  - pose proof (install_session_keeps env key _ (I_log [EvAcquire] _ HI)) as H2.
    destruct (install_session env key _) as [r st2]. simpl in *. auto.
Qed.

Lemma terminate_session_keeps key st : I st → I (terminate_session key st).2.
Proof.
  intros HI. unfold terminate_session, with_sessions_lock, pop_session. munfold. simpl.
  destruct (sessions st !! key) as [s|]; [|simpl; auto].
  apply terminate_process_now_keeps. auto.
Qed.

Lemma for_each_terminate_keeps keys : ∀ st,
  I st → I (for_each keys terminate_session st).2.
Proof.
  induction keys as [|k keys IH]; intros st HI; simpl; [done|].
  munfold. pose proof (terminate_session_keeps k st HI) as H1.
  destruct (terminate_session_run k st) as (st1 & Hrun & _). rewrite Hrun in *.
  by apply IH.
Qed.

Lemma cleanup_worker_keeps ticks : ∀ st, I st → I (cleanup_worker ticks st).2.
Proof.
  induction ticks as [|ticks IH]; intros st HI; [done|].
  simpl. munfold. simpl. unfold cleanup_tick, evict. munfold. rewrite scan_stale_run.
  match goal with |- context [for_each ?ks _ ?x] =>
    assert (I x) as Hx by auto 10;
    pose proof (for_each_terminate_keeps ks x Hx) as H1;
    destruct (for_each_terminate_run ks x) as (st' & Hrun & _) end.
  rewrite Hrun in *. by apply IH.
Qed.

Lemma close_keeps reaper_busy st : I st → I (close reaper_busy st).2.
Proof.
  intros HI. unfold close, with_sessions_lock. munfold. simpl.
  apply for_each_terminate_keeps. simpl. auto 10.
Qed.

Lemma ask_keeps env fuel key prompt timeout_seconds : ∀ st,
  I st → I (ask env fuel key prompt timeout_seconds st).2.
Proof.
  induction fuel as [|fuel IH]; intros st HI; [done|].
  rewrite ask_S. munfold.
  pose proof (get_or_create_keeps env key st HI) as H1.
  destruct (get_or_create_session env key st) as [[session| |] st1]; simpl in *; try done.
  destruct (exited (process session) (clock st1)).
  - pose proof (replace_keeps env key st1 H1) as H2.
    destruct (replace_session env key st1) as [[s'| |] st2]; simpl in *; try done.
    by apply IH.
  - unfold put_session. munfold. simpl.
    destruct (stdin_write _ _ _) as [p1|]; simpl; [|auto].
    destruct (read_response _ _ _ _) as [[[[output t] out'] why]|]; simpl; auto 10.
Qed.

Lemma serve_all_keeps env rs : ∀ st, I st → I (serve_all env rs st).
Proof.
  unfold serve_all. induction rs as [|r rs IH]; intros st HI; simpl; [done|].
  apply IH. destruct r; simpl.
  - by apply ask_keeps.
  - by apply get_or_create_keeps.
  - by apply replace_keeps.
  - by apply terminate_session_keeps.
  - by apply cleanup_worker_keeps.
  - by apply close_keeps.
Qed.

End Preserved.

Lemma keys_recorded_register k s st : keys_recorded st → keys_recorded (register k s st).
Proof.
  intros [Hnd Hin]. unfold keys_recorded, register. simpl. split.
  - destruct (decide (k ∈ key_order st)) as [|Hout]; [done|].
    apply NoDup_app. split; [done|]. split; [|apply NoDup_singleton].
    intros k' Hk' ->%list_elem_of_singleton. done.
  - intros k'. destruct (decide (k' = k)) as [->|Hne].
    + rewrite lookup_insert_eq. split; [by eexists|]. intros _.
      destruct (decide (k ∈ key_order st)); [done|].
      apply elem_of_app. right. by apply list_elem_of_singleton.
    + rewrite lookup_insert_ne by done. rewrite <- Hin.
      destruct (decide (k ∈ key_order st)); [done|].
      rewrite elem_of_app, list_elem_of_singleton. tauto.
Qed.

Lemma keys_recorded_unregister k st : keys_recorded st → keys_recorded (unregister k st).
Proof.
  intros [Hnd Hin]. unfold keys_recorded, unregister. simpl.
  split; [by apply NoDup_filter|].
  intros k'. rewrite list_elem_of_filter. destruct (decide (k' = k)) as [->|Hne].
  - rewrite lookup_delete_eq. split; [by intros [? ?]|by intros [? ?]].
  - rewrite lookup_delete_ne by done. rewrite <- Hin. tauto.
Qed.

Lemma remove_dups_NoDup (l : list str) : NoDup l → remove_dups l = l.
Proof.
  induction 1 as [|x l Hx _ IH]; simpl; [done|].
  destruct (decide_rel elem_of x l); [done|]. by rewrite IH.
Qed.

Lemma filter_all {A} (P : A → Prop) `{∀ x, Decision (P x)} (l : list A) :
  Forall P l → filter P l = l.
Proof.
  induction 1 as [|x l Hx _ IH]; [done|].
  rewrite filter_cons, decide_True by done. by rewrite IH.
Qed.

Lemma filter_none {A} (P : A → Prop) `{∀ x, Decision (P x)} (l : list A) :
  Forall (λ x, ¬ P x) l → filter P l = [].
Proof.
  induction 1 as [|x l Hx _ IH]; [done|].
  rewrite filter_cons, decide_False by done. exact IH.
Qed.

(** When the order is recorded, Python iterates in that order. *)
Lemma dict_keys_recorded st :
  keys_recorded st → dict_keys (key_order st) (sessions st) = key_order st.
Proof.
  intros [Hnd Hin]. unfold dict_keys.
  rewrite (remove_dups_NoDup _ Hnd).
  rewrite (filter_all (λ k, is_Some (sessions st !! k)) (key_order st))
    by (apply Forall_forall; intros k Hk; by apply Hin).
  rewrite filter_none; [by rewrite app_nil_r|].
  apply Forall_forall. intros k ([k' s] & -> & Hk)%list_elem_of_fmap Hout.
  apply elem_of_map_to_list in Hk. apply Hout, Hin. by exists s.
Qed.

(** In every state the adapter can reach from its construction, the keys
    of the registry are recorded in the order of their insertion, and the
    reaper and [close] go through them in that order. *)
Lemma reachable_keys_recorded env rs idle interval now :
  keys_recorded (serve_all env rs (init idle interval now)) ∧
  dict_keys (key_order (serve_all env rs (init idle interval now)))
            (sessions (serve_all env rs (init idle interval now)))
    = key_order (serve_all env rs (init idle interval now)).
Proof.
  assert (keys_recorded (serve_all env rs (init idle interval now))) as Hrec.
  { apply serve_all_keeps; try done.
    - apply keys_recorded_register.
    - apply keys_recorded_unregister.
    - split; [apply NoDup_nil_2|]. intros k. simpl. rewrite lookup_empty.
      split; [by intros ?%elem_of_nil|by intros [? ?]]. }
  split; [done|by apply dict_keys_recorded].
Qed.

End OrderFacts.

(** * Facts about the coordinator, [ask] *)

Module AskFacts.

Import PipeFacts ReaderFacts ProcessFacts AdapterFacts RegistryFacts.

(** One iteration of [ask], spelled out on the outcome of the look-up. *)
Lemma ask_iteration env fuel key prompt timeout_seconds st session st1 :
  get_or_create_session env key st = (Returned session, st1) →
  ask env (S fuel) key prompt timeout_seconds st =
  if exited (process session) (clock st1) then
    match replace_session env key st1 with
    | (Returned _, st2) => ask env fuel key prompt timeout_seconds st2
    | (Raised e, st2) => (Raised e, st2)
    | (Diverged, st2) => (Diverged, st2)
    end
  else
    match stdin_write (process session) (clock st1) (prompt ++ [10%N]) with
    | None =>
      (Raised BrokenPipeError,
       register key (touched session (process session) (clock st1)) st1)
    | Some p1 =>
      let written :=
        add_log [EvWrite (pid p1)]
          (register key (touched session p1 (clock st1))
             (register key (touched session (process session) (clock st1)) st1)) in
      match read_response timeout_seconds (stdout_eof p1) (clock st1) (stdout p1) with
      | Some (output, t, out', _) =>
        (Returned (strip_or_placeholder output),
         register key (touched session (with_stdout p1 out') t) (set_clock t written))
      | None => (Diverged, written)
      end
    end.
Proof.
  intros Hg. rewrite ask_S. munfold. rewrite Hg. simpl.
  destruct (exited (process session) (clock st1)); [done|].
  unfold put_session. munfold. simpl.
  destruct (stdin_write _ _ _) as [p1|]; [|done]. simpl.
  destruct (read_response _ _ _ _) as [[[[output t] out'] why]|]; done.
Qed.


(** [read_response] always yields a result. *)
Lemma read_response_some timeout_seconds eof now out :
  ∃ output t out' why,
    read_response timeout_seconds eof now out = Some (output, t, out', why).
Proof.
  destruct (read_response_total timeout_seconds eof now out)
    as [[[[output t] out'] why] H]. eauto.
Qed.

(** C1, as the code has it.  After the look-up, one iteration of [ask]
    goes one of three ways.  If the in-lock check finds the process exited,
    the session is replaced once and the loop starts over: this is the only
    way into another iteration, and nothing bounds how often it is taken.
    If the process is alive and the write of the prompt fails,
    [BrokenPipeError] leaves [ask] at once: the session stays registered
    with its process, nothing is replaced, spawned, signalled or retried.
    If the write succeeds, the call ends in this iteration with a text. *)
Theorem ask_write_failure_propagates env fuel key prompt timeout_seconds st session st1 :
  get_or_create_session env key st = (Returned session, st1) →
  if exited (process session) (clock st1) then
    ask env (S fuel) key prompt timeout_seconds st =
    (replace_session env key;; ask env fuel key prompt timeout_seconds) st1
  else
    match stdin_write (process session) (clock st1) (prompt ++ [10%N]) with
    | None =>
      ∃ st',
        ask env (S fuel) key prompt timeout_seconds st = (Raised BrokenPipeError, st') ∧
        sessions st' !! key = Some (touched session (process session) (clock st1)) ∧
        spawned st' = spawned st1 ∧ log st' = log st1 ∧
        reaped st' = reaped st1 ∧ clock st' = clock st1
    | Some p1 =>
      ∃ text st',
        ask env (S fuel) key prompt timeout_seconds st = (Returned text, st') ∧
        spawned st' = spawned st1 ∧ reaped st' = reaped st1
    end.
Proof.
  intros Hg. rewrite (ask_iteration _ _ _ _ _ _ _ _ Hg).
  destruct (exited (process session) (clock st1)).
  - munfold. by destruct (replace_session env key st1) as [[s| |] st2].
  - destruct (stdin_write _ _ _) as [p1|].
    + destruct (read_response_some timeout_seconds (stdout_eof p1) (clock st1) (stdout p1))
        as (output & t & out' & why & ->).
      eexists _, _. split; [done|]. done.
    + eexists. split; [done|]. simpl. by rewrite lookup_insert_eq.
Qed.

Lemma ask_write_failure_propagates_witness :
  ∃ st',
    ask deaf_then_hello 1 u1 (lit "hi") 30 (init 900 30 0) = (Raised BrokenPipeError, st') ∧
    sessions st' !! u1
      = Some (touched {| session_key := u1; process := popen 0 deaf; last_used := 0 |}
                (popen 0 deaf) 0) ∧
    spawned st' = spawned (get_or_create_session deaf_then_hello u1 (init 900 30 0)).2 ∧
    log st' = log (get_or_create_session deaf_then_hello u1 (init 900 30 0)).2 ∧
    reaped st' = reaped (get_or_create_session deaf_then_hello u1 (init 900 30 0)).2 ∧
    clock st' = clock (get_or_create_session deaf_then_hello u1 (init 900 30 0)).2.
Proof.
  apply (ask_write_failure_propagates deaf_then_hello 0 u1 (lit "hi") 30 (init 900 30 0)
           {| session_key := u1; process := popen 0 deaf; last_used := 0 |}
           (get_or_create_session deaf_then_hello u1 (init 900 30 0)).2).
  vm_compute. reflexivity.
Defined.

(** With children that are dead on arrival, the look-up and the
    replacement both hand out a dead session. *)
Lemma stillborn_get env key st :
  (∀ n, env n = Some stillborn) → 0 ≤ clock st →
  (∀ s, sessions st !! key = Some s → exited (process s) (clock st) = true) →
  ∃ s st1, get_or_create_session env key st = (Returned s, st1) ∧
    exited (process s) (clock st1) = true ∧ 0 ≤ clock st1 ∧
    sessions st1 !! key = Some s.
Proof.
  intros Henv Hc Hdead. unfold get_or_create_session, with_sessions_lock. munfold. simpl.
  destruct (sessions st !! key) as [s0|] eqn:Hk.
  - rewrite (Hdead s0 eq_refl). simpl.
    rewrite terminate_process_now_exited by (simpl; by apply Hdead).
    rewrite install_session_run. simpl. rewrite Henv. simpl.
    eexists _, _. split; [done|]. simpl. rewrite lookup_insert_eq.
    split; [by apply Z.leb_le|done].
  - rewrite install_session_run. simpl. rewrite Henv. simpl.
    eexists _, _. split; [done|]. simpl. rewrite lookup_insert_eq.
    split; [by apply Z.leb_le|done].
Qed.

Lemma stillborn_replace env key st :
  (∀ n, env n = Some stillborn) → 0 ≤ clock st →
  (∀ s, sessions st !! key = Some s → exited (process s) (clock st) = true) →
  ∃ s st1, replace_session env key st = (Returned s, st1) ∧
    exited (process s) (clock st1) = true ∧ 0 ≤ clock st1 ∧
    sessions st1 !! key = Some s.
Proof.
  intros Henv Hc Hdead. unfold replace_session, with_sessions_lock. munfold. simpl.
  destruct (sessions st !! key) as [s0|] eqn:Hk.
  - rewrite terminate_process_now_exited by (simpl; by apply Hdead).
    unfold put_session. munfold.
    rewrite install_session_run. simpl. rewrite Henv. simpl.
    eexists _, _. split; [done|]. simpl. rewrite lookup_insert_eq.
    split; [by apply Z.leb_le|done].
  - rewrite install_session_run. simpl. rewrite Henv. simpl.
    eexists _, _. split; [done|]. simpl. rewrite lookup_insert_eq.
    split; [by apply Z.leb_le|done].
Qed.

(** With such children [ask] never leaves its loop, whatever the fuel. *)
Lemma stillborn_loops env key prompt timeout_seconds :
  (∀ n, env n = Some stillborn) →
  ∀ fuel st, 0 ≤ clock st →
  (∀ s, sessions st !! key = Some s → exited (process s) (clock st) = true) →
  (ask env fuel key prompt timeout_seconds st).1 = Diverged.
Proof.
  intros Henv. induction fuel as [|fuel IH]; intros st Hc Hdead; [done|].
  destruct (stillborn_get env key st Henv Hc Hdead) as (s & st1 & Hg & Hex & Hc1 & Hk1).
  rewrite (ask_iteration _ _ _ _ _ _ _ _ Hg), Hex.
  destruct (stillborn_replace env key st1 Henv Hc1) as (s2 & st2 & -> & Hex2 & Hc2 & Hk2).
  { intros s' Hs'. rewrite Hk1 in Hs'. by inversion Hs'; subst. }
  apply IH; [done|]. intros s' Hs'. rewrite Hk2 in Hs'. by inversion Hs'; subst.
Qed.

(** C1, as the claim has it, fails twice.  The first child is alive but
    has closed its stdin and every later child would answer "hi": the
    write fails and [ask] raises [BrokenPipeError] with one process spawned,
    the deaf child still registered and unsignalled, where a replacement
    and a retry would have spawned a second child and returned "hi".  And
    when every child is dead on arrival, [ask] replaces and retries without
    end: it yields no result on any amount of fuel. *)
Lemma write_failure_not_retried :
  (∃ st',
     ask deaf_then_hello 5 u1 (lit "hi") 30 (init 900 30 0)
       = (Raised BrokenPipeError, st') ∧
     spawned st' = 1%nat ∧
     log st' = [EvAcquire; EvSpawn 0; EvRelease] ∧
     (process <$> sessions st' !! u1) = Some (popen 0 deaf))
  ∧ (∀ fuel,
       (ask (always stillborn) fuel u1 (lit "hi") 30 (init 900 30 0)).1 = Diverged).
Proof.
  split.
  - eexists. split; [vm_compute; reflexivity|]. vm_compute. done.
  - intros fuel. apply stillborn_loops; [done|simpl; lia|].
    intros s Hs. simpl in Hs. rewrite lookup_empty in Hs. discriminate.
Qed.

End AskFacts.

(** * Facts about [str.strip] and the text [ask] returns *)

Module StripFacts.

Import PipeFacts ReaderFacts ProcessFacts AdapterFacts RegistryFacts AskFacts.

Lemma lstrip_split s :
  ∃ ws, s = ws ++ lstrip s ∧ Forall (λ c, isspace c = true) ws.
Proof.
  induction s as [|c s (ws & IH & Hws)]; simpl.
  - by exists [].
  - destruct (isspace c) eqn:Hc.
    + exists (c :: ws). split; [simpl; by rewrite <- IH|by constructor].
    + by exists [].
Qed.

Lemma lstrip_head s c s' : lstrip s = c :: s' → isspace c = false.
Proof.
  induction s as [|d s IH]; simpl; [done|].
  destruct (isspace d) eqn:Hd; [done|]. intros H. by inversion H; subst.
Qed.

Lemma rstrip_split s :
  ∃ ws, s = rstrip s ++ ws ∧ Forall (λ c, isspace c = true) ws.
Proof.
  unfold rstrip. destruct (lstrip_split (reverse s)) as (ws & Hs & Hws).
  exists (reverse ws). split.
  - rewrite <- reverse_app, <- Hs. by rewrite reverse_involutive.
  - by apply Forall_reverse.
Qed.

Lemma rstrip_last s c : last (rstrip s) = Some c → isspace c = false.
Proof.
  unfold rstrip. rewrite last_reverse. intros H.
  destruct (lstrip (reverse s)) as [|d r] eqn:Hl; [done|].
  simpl in H. inversion H; subst. by apply (lstrip_head _ _ _ Hl).
Qed.

(** Stripping the right end leaves the left end alone. *)
Lemma rstrip_head s c :
  isspace c = false → rstrip (c :: s) = c :: rstrip s.
Proof.
  intros Hc. unfold rstrip. rewrite reverse_cons.
  assert (∀ l, lstrip (l ++ [c]) = lstrip l ++ [c]) as Hl.
  { induction l as [|d l IH]; simpl; [by rewrite Hc|].
    destruct (isspace d); [done|done]. }
  rewrite Hl, reverse_app. done.
Qed.

(** What [strip] does: it cuts whitespace, and only whitespace, off both
    ends, and what is left neither starts nor ends with whitespace. *)
Lemma strip_spec s :
  (∃ l r, s = l ++ strip s ++ r ∧
          Forall (λ c, isspace c = true) l ∧ Forall (λ c, isspace c = true) r) ∧
  (∀ c, head (strip s) = Some c → isspace c = false) ∧
  (∀ c, last (strip s) = Some c → isspace c = false).
Proof.
  unfold strip. split; [|split].
  - destruct (lstrip_split s) as (l & Hl & Hwl).
    destruct (rstrip_split (lstrip s)) as (r & Hr & Hwr).
    exists l, r. split; [|done]. by rewrite <- Hr.
  - intros c Hc. destruct (lstrip s) as [|d t] eqn:Hs; [done|].
    pose proof (lstrip_head _ _ _ Hs) as Hd.
    rewrite (rstrip_head t d Hd) in Hc. simpl in Hc. by inversion Hc; subst.
  - apply rstrip_last.
Qed.

Lemma placeholder_clean :
  placeholder ≠ [] ∧
  (∀ c, head placeholder = Some c → isspace c = false) ∧
  (∀ c, last placeholder = Some c → isspace c = false).
Proof.
  split; [done|]. split; intros c Hc; vm_compute in Hc; by inversion Hc.
Qed.

(** The text [ask] makes of the reader's output. *)
Lemma strip_or_placeholder_spec output :
  (strip output = [] → strip_or_placeholder output = placeholder) ∧
  (strip output ≠ [] → strip_or_placeholder output = strip output) ∧
  strip_or_placeholder output ≠ [] ∧
  (∀ c, head (strip_or_placeholder output) = Some c → isspace c = false) ∧
  (∀ c, last (strip_or_placeholder output) = Some c → isspace c = false).
Proof.
  unfold strip_or_placeholder.
  destruct (strip_spec output) as (_ & Hh & Hl).
  destruct (strip output) as [|c t] eqn:Hs; simpl.
  - destruct placeholder_clean as (? & ? & ?). by repeat split.
  - by repeat split.
Qed.

(** A pipe that is empty and closed reads as the empty text. *)
Lemma read_response_closed timeout_seconds e now :
  e ≤ now →
  ∃ t why, read_response timeout_seconds (Some e) now [] = Some ([], t, [], why).
Proof.
  intros He.
  assert (∃ t why, read_loop 1 (now + 1000 * timeout_seconds) (Some e) [] now []
                   = Some ([], t, [], why)) as (t & why & H).
  { rewrite read_loop_S.
    destruct (now <? now + 1000 * timeout_seconds); [|eauto].
    unfold select, outer_poll, min_remaining.
    destruct (Z.ltb_spec e (now + Z.min 250 (Z.max 50 (now + 1000 * timeout_seconds - now))));
      [|lia].
    unfold os_read. simpl. eauto. }
  exists t, why. by apply (read_response_of_loop _ _ _ _ _ _ _ _ _ H).
Qed.

(** Every text [ask] returns was made, after some replacements, from what
    the reader got out of the process that took the prompt, which is the
    one left registered. *)
Lemma ask_returns_reader_output env fuel key prompt timeout_seconds : ∀ st text st',
  ask env fuel key prompt timeout_seconds st = (Returned text, st') →
  ∃ n session st1 p1 output out' why,
    (n < fuel)%nat ∧
    get_or_create_session env key (Nat.iter n (retried env key) st)
      = (Returned session, st1) ∧
    exited (process session) (clock st1) = false ∧
    stdin_write (process session) (clock st1) (prompt ++ [10%N]) = Some p1 ∧
    read_response timeout_seconds (stdout_eof p1) (clock st1) (stdout p1)
      = Some (output, clock st', out', why) ∧
    sessions st' !! key = Some (touched session (with_stdout p1 out') (clock st')) ∧
    text = strip_or_placeholder output.
Proof.
  induction fuel as [|fuel IH]; intros st text st' H; [discriminate|].
  destruct (get_or_create_session env key st) as [[session| |] st1] eqn:Hg.
  - rewrite (ask_iteration _ _ _ _ _ _ _ _ Hg) in H.
    destruct (exited (process session) (clock st1)) eqn:Hex.
    + destruct (replace_session env key st1) as [[s| |] st2] eqn:Hrep;
        try discriminate.
      apply IH in H
        as (n & session' & st1' & p1 & output & out' & why & Hn & Hg' & Hrest).
      exists (S n), session', st1', p1, output, out', why.
      split; [lia|]. split; [|exact Hrest].
      assert (retried env key st = st2) as Hst2
        by (unfold retried; rewrite Hg; simpl; by rewrite Hrep).
      by rewrite Nat.iter_succ_r, Hst2.
    + destruct (stdin_write _ _ _) as [p1|] eqn:Hw; [|discriminate].
      destruct (read_response _ _ _ _) as [[[[output t] out'] why]|] eqn:Hr;
        [|discriminate].
      inversion H; subst. exists 0%nat, session, st1, p1, output, out', why.
      simpl. rewrite lookup_insert_eq. split; [lia|done].
  - rewrite ask_S in H. munfold. rewrite Hg in H. discriminate.
  - rewrite ask_S in H. munfold. rewrite Hg in H. discriminate.
Qed.

(** C6.  Whenever [ask] returns, it has replaced the session some number
    of times and then a look-up has handed it a running process that took
    the prompt; the reader then read that process's stdout until the
    instant [ask] returned, and the process is left registered with the
    rest of its output.  The text returned is what the
    reader got with whitespace, and nothing else, cut off both ends; if
    nothing is left the text is the placeholder "(no response)".  So the
    text is never empty and never starts or ends with whitespace.  An
    iteration whose look-up yields a running process that takes the prompt
    returns exactly that: the reader's output, stripped, or the
    placeholder.  In particular, when the process's stdout is closed with
    no byte in it, [ask] returns the placeholder. *)
Theorem ask_text_is_stripped env fuel key prompt timeout_seconds st :
  (∀ text st',
     ask env fuel key prompt timeout_seconds st = (Returned text, st') →
     ∃ n session st1 p1 output out' why,
       (n < fuel)%nat ∧
       get_or_create_session env key (Nat.iter n (retried env key) st)
         = (Returned session, st1) ∧
       exited (process session) (clock st1) = false ∧
       stdin_write (process session) (clock st1) (prompt ++ [10%N]) = Some p1 ∧
       read_response timeout_seconds (stdout_eof p1) (clock st1) (stdout p1)
         = Some (output, clock st', out', why) ∧
       sessions st' !! key = Some (touched session (with_stdout p1 out') (clock st')) ∧
       (∃ l r, output = l ++ strip output ++ r ∧
               Forall (λ c, isspace c = true) l ∧ Forall (λ c, isspace c = true) r) ∧
       (strip output ≠ [] → text = strip output) ∧
       (strip output = [] → text = lit "(no response)") ∧
       text ≠ [] ∧
       (∀ c, head text = Some c → isspace c = false) ∧
       (∀ c, last text = Some c → isspace c = false))
  ∧ (∀ session st1 p1,
       get_or_create_session env key st = (Returned session, st1) →
       exited (process session) (clock st1) = false →
       stdin_write (process session) (clock st1) (prompt ++ [10%N]) = Some p1 →
       ∃ output t out' why,
         read_response timeout_seconds (stdout_eof p1) (clock st1) (stdout p1)
           = Some (output, t, out', why) ∧
         (ask env (S fuel) key prompt timeout_seconds st).1
           = Returned (if decide (strip output = []) then lit "(no response)"
                       else strip output) ∧
         clock (ask env (S fuel) key prompt timeout_seconds st).2 = t ∧
         sessions (ask env (S fuel) key prompt timeout_seconds st).2 !! key
           = Some (touched session (with_stdout p1 out') t))
  ∧ (∀ session st1 p1,
       get_or_create_session env key st = (Returned session, st1) →
       exited (process session) (clock st1) = false →
       stdin_write (process session) (clock st1) (prompt ++ [10%N]) = Some p1 →
       stdout (process session) = [] →
       reached (stdout_eof (process session)) (clock st1) = true →
       (ask env (S fuel) key prompt timeout_seconds st).1 = Returned (lit "(no response)")).
Proof.
  split; [|split].
  - intros text st' H.
    destruct (ask_returns_reader_output _ _ _ _ _ _ _ _ H)
      as (n & session & st1 & p1 & output & out' & why
          & Hn & Hg & Hex & Hw & Hr & Hk & ->).
    exists n, session, st1, p1, output, out', why.
    destruct (strip_spec output) as (Hs & _).
    destruct (strip_or_placeholder_spec output) as (H1 & H2 & H3 & H4 & H5).
    by repeat split.
  - intros session st1 p1 Hg Hex Hw.
    rewrite (ask_iteration _ _ _ _ _ _ _ _ Hg), Hex, Hw.
    destruct (read_response_some timeout_seconds (stdout_eof p1) (clock st1) (stdout p1))
      as (output & t & out' & why & ->).
    exists output, t, out', why. split; [done|]. simpl.
    split; [|split; [done|by rewrite lookup_insert_eq]].
    unfold strip_or_placeholder, truthy.
    by destruct (strip output).
  - intros session st1 p1 Hg Hex Hw Hout Heof.
    rewrite (ask_iteration _ _ _ _ _ _ _ _ Hg), Hex, Hw.
    assert (stdout p1 = [] ∧ stdout_eof p1 = stdout_eof (process session)) as [-> ->].
    { unfold stdin_write in Hw.
      destruct (_ || _); [discriminate|]. inversion Hw; subst. by simpl. }
    destruct (stdout_eof (process session)) as [e|]; [|discriminate].
    simpl in Heof. apply Z.leb_le in Heof.
    destruct (read_response_closed timeout_seconds e (clock st1) Heof) as (t & why & ->).
    done.
Qed.

Lemma ask_text_is_stripped_witness :
  (ask (always mute) 1 u1 (lit "hi") 30 (init 900 30 0)).1 = Returned (lit "(no response)").
Proof.
  apply (proj2 (proj2 (ask_text_is_stripped (always mute) 0 u1 (lit "hi") 30 (init 900 30 0)))
           {| session_key := u1; process := popen 0 mute; last_used := 0 |}
           (get_or_create_session (always mute) u1 (init 900 30 0)).2
           (default (popen 0 mute) (stdin_write (popen 0 mute) 0 (lit "hi" ++ [10%N]))));
    vm_compute; reflexivity.
Defined.

End StripFacts.

(** * Facts about the reaper *)

Module ReaperFacts.

Import ProcessFacts AdapterFacts RegistryFacts.

(** What [_terminate_session] does to the adapter. *)
Lemma terminate_session_effect key st :
  ∃ st', terminate_session key st = (Returned tt, st') ∧
    sessions st' = delete key (sessions st) ∧
    idle_timeout_seconds st' = idle_timeout_seconds st ∧
    clock st ≤ clock st' ≤ clock st + grace ∧
    cleanup_interval_seconds st' = cleanup_interval_seconds st ∧
    spawned st' = spawned st ∧
    match sessions st !! key with
    | Some s =>
      clock st' = (terminate_process (process s) (clock st)).2 ∧
      reaped st' = reaped st ++ [(terminate_process (process s) (clock st)).1]
    | None => clock st' = clock st ∧ reaped st' = reaped st
    end.
Proof.
  unfold terminate_session, with_sessions_lock, pop_session. munfold. simpl.
  destruct (sessions st !! key) as [s|].
  - destruct (terminate_process_now_run (process s)
      (add_log [EvRelease] (unregister key (add_log [EvAcquire] st))))
      as [evs ->].
    eexists. split; [done|]. simpl.
    pose proof (terminate_process_time (process s) (clock st)) as Ht.
    split; [done|]. split; [done|]. split; [exact Ht|]. by repeat split.
  - eexists. split; [done|]. simpl. unfold grace. repeat split; lia.
Qed.

Lemma lookup_deletes keys : ∀ (m : gmap str ClaudeSession) k,
  foldl (λ m k, delete k m) m keys !! k = if decide (k ∈ keys) then None else m !! k.
Proof.
  induction keys as [|k0 keys IH]; intros m k; simpl; [done|].
  rewrite IH. destruct (decide (k ∈ keys)) as [Hin|Hout].
  - rewrite decide_True; [done|by right].
  - destruct (decide (k = k0)) as [->|Hne].
    + rewrite lookup_delete_eq. rewrite decide_True; [done|by left].
    + rewrite lookup_delete_ne by done.
      rewrite decide_False; [done|]. intros [->|?]%elem_of_cons; done.
Qed.

(** The keys Python iterates over are those of the registry. *)
Lemma elem_of_dict_keys (order : list str) (m : gmap str ClaudeSession) (k : str) :
  k ∈ dict_keys order m ↔ is_Some (m !! k).
Proof.
  unfold dict_keys. rewrite elem_of_app, !list_elem_of_filter, list_elem_of_fmap. split.
  - intros [[Hk _] | [_ ([k' s] & -> & Hin)]]; [done|].
    apply elem_of_map_to_list in Hin. by exists s.
  - intros [s Hk].
    destruct (decide (k ∈ filter (λ k, is_Some (m !! k)) (remove_dups order)))
      as [Hin|Hout].
    + left. by apply list_elem_of_filter in Hin.
    + right. split; [intros Hin; apply Hout; by apply list_elem_of_filter|].
      exists (k, s).
      split; [done|]. by apply elem_of_map_to_list.
Qed.


(** The keys the scan marks are those of the sessions older than the
    idle timeout. *)
Lemma elem_of_stale_keys (idle now : Z) (order : list str)
    (m : gmap str ClaudeSession) (k : str) :
  k ∈ stale_keys idle now order m ↔
  ∃ s, m !! k = Some s ∧ 1000 * idle < now - last_used s.
Proof.
  unfold stale_keys, is_stale. rewrite list_elem_of_filter, elem_of_dict_keys. split.
  - intros [Hst [s Hk]]. rewrite Hk in Hst. simpl in Hst.
    exists s. split; [done|]. by apply Z.ltb_lt.
  - intros (s & Hk & Hst). rewrite Hk. simpl. split; [by apply Z.ltb_lt|by exists s].
Qed.

(** What the evictions of a tick do to the adapter. *)
Lemma evict_effect keys : ∀ st,
  ∃ st', evict keys st = (Returned tt, st') ∧
    sessions st' = foldl (λ m k, delete k m) (sessions st) keys ∧
    idle_timeout_seconds st' = idle_timeout_seconds st ∧
    clock st ≤ clock st' ≤ clock st + grace * Z.of_nat (length keys) ∧
    cleanup_interval_seconds st' = cleanup_interval_seconds st ∧
    spawned st' = spawned st ∧
    ∃ more, reaped st' = reaped st ++ more.
Proof.
  unfold evict. induction keys as [|k keys IH]; intros st; simpl.
  - eexists. split; [done|]. repeat split; try lia. exists []. by rewrite app_nil_r.
  - munfold.
    destruct (terminate_session_effect k st) as (st1 & -> & Hs & Hi & Hc & Hiv & Hsp & Hr).
    destruct (IH st1) as (st2 & -> & Hs2 & Hi2 & Hc2 & Hiv2 & Hsp2 & more & Hr2).
    exists st2. split; [done|]. rewrite Hs2, Hs, Hi2, Hi, Hiv2, Hiv, Hsp2, Hsp.
    repeat split; try lia.
    destruct (sessions st !! k) as [s|]; destruct Hr as [_ Hr]; rewrite Hr2, Hr.
    + rewrite <- app_assoc. eauto.
    + eauto.
Qed.

(** [_terminate_process] is called, during the evictions, on the process
    of every session among the marked keys. *)
Lemma evict_reaps keys : ∀ st k s,
  k ∈ keys → sessions st !! k = Some s →
  ∃ t0, clock st ≤ t0 ∧
        (terminate_process (process s) t0).2 ≤ clock (evict keys st).2 ∧
        (terminate_process (process s) t0).1 ∈ reaped (evict keys st).2.
Proof.
  unfold evict. induction keys as [|k0 keys IH]; intros st k s Hin Hk.
  - by apply elem_of_nil in Hin.
  - simpl. munfold.
    destruct (terminate_session_effect k0 st) as (st1 & Ht & Hs & Hi & Hc & _ & _ & Hr).
    rewrite Ht.
    destruct (decide (k = k0)) as [->|Hne].
    + rewrite Hk in Hr. destruct Hr as [Hc1 Hr1].
      destruct (evict_effect keys st1) as (st2 & He & _ & _ & Hc2 & _ & _ & more & Hr2).
      unfold evict in He. rewrite He. simpl.
      exists (clock st). split; [lia|]. split; [lia|].
      rewrite Hr2, Hr1. apply elem_of_app. left. apply elem_of_app. right.
      by apply list_elem_of_singleton.
    + apply elem_of_cons in Hin as [?|Hin]; [done|].
      destruct (IH st1 k s Hin) as (t0 & Ht0 & Hrest); [by rewrite Hs, lookup_delete_ne|].
      exists t0. split; [lia|done].
Qed.

(** The process [_terminate_process] leaves behind, looked at later. *)
Lemma terminate_process_later p t0 t :
  (terminate_process p t0).2 ≤ t →
  pid (terminate_process p t0).1 = pid p ∧ terminated (terminate_process p t0).1 t.
Proof.
  intros Ht. split; [apply terminate_process_pid|].
  eapply terminated_mono; [exact Ht|apply terminate_process_terminated].
Qed.

(** What one tick does, in terms of the keys its scan marks. *)
Lemma cleanup_tick_effect st0 :
  ∃ st', cleanup_tick st0 = (Returned tt, st') ∧
    (∀ k, sessions st' !! k =
          if decide (k ∈ stale_keys (idle_timeout_seconds st0) (clock st0)
                               (key_order st0) (sessions st0))
          then None else sessions st0 !! k) ∧
    (∀ k s, k ∈ stale_keys (idle_timeout_seconds st0) (clock st0)
                    (key_order st0) (sessions st0) →
            sessions st0 !! k = Some s →
            ∃ t0, clock st0 ≤ t0 ∧
                  (terminate_process (process s) t0).2 ≤ clock st' ∧
                  (terminate_process (process s) t0).1 ∈ reaped st') ∧
    clock st0 ≤ clock st' ≤
      clock st0 + grace * Z.of_nat (length (stale_keys (idle_timeout_seconds st0)
                                              (clock st0) (key_order st0)
                                              (sessions st0))) ∧
    idle_timeout_seconds st' = idle_timeout_seconds st0 ∧
    cleanup_interval_seconds st' = cleanup_interval_seconds st0 ∧
    spawned st' = spawned st0.
Proof.
  unfold cleanup_tick. munfold. rewrite scan_stale_run.
  set (stale := stale_keys _ _ _ _).
  set (st1 := add_log [EvRelease] (add_log [EvAcquire] st0)).
  destruct (evict_effect stale st1) as (st' & He & Hs & Hi & Hc & Hiv & Hsp & _).
  exists st'. split; [done|]. split; [|split; [|split; [done|done]]].
  - intros k. rewrite Hs. apply lookup_deletes.
  - intros k s Hin Hk. pose proof (evict_reaps stale st1 k s Hin Hk) as Hr.
    by rewrite He in Hr.
Qed.

(** C7, as the code has it.  A reaper tick that runs from its scan to its
    last eviction with no request in between removes exactly the sessions
    whose [last_used] lay more than the idle timeout before the scan, and
    calls [_terminate_process] on the process of each during the tick: when
    the tick ends that process is gone, or it outlived SIGTERM and the
    grace period, was sent SIGKILL and goes within its kill latency, which
    the code does not wait for.  A session not older than the timeout is
    left in place, with its process untouched.  The tick lasts at most the
    grace period for each session it evicts.  A reaper that starts waiting
    with a session registered evicts it at the tick that ends the wait if
    the session's threshold is crossed before the wait ends. *)
Theorem cleanup_tick_evicts_stale st :
  ∃ st', cleanup_tick st = (Returned tt, st') ∧
    (∀ k s, sessions st !! k = Some s →
            1000 * idle_timeout_seconds st < clock st - last_used s →
            sessions st' !! k = None ∧
            ∃ t0 p', clock st ≤ t0 ≤ clock st' ∧
                  p' = (terminate_process (process s) t0).1 ∧
                  p' ∈ reaped st' ∧ pid p' = pid (process s) ∧
                  terminated p' (clock st')) ∧
    (∀ k s, sessions st !! k = Some s →
            clock st - last_used s ≤ 1000 * idle_timeout_seconds st →
            sessions st' !! k = Some s) ∧
    (∀ k, sessions st !! k = None → sessions st' !! k = None) ∧
    clock st ≤ clock st' ≤
      clock st + grace * Z.of_nat (length (stale_keys (idle_timeout_seconds st)
                                             (clock st) (key_order st)
                                             (sessions st))) ∧
    (∀ k s, sessions st !! k = Some s →
            last_used s + 1000 * idle_timeout_seconds st
              < clock st + 1000 * cleanup_interval_seconds st →
            sessions (cleanup_worker 1 st).2 !! k = None).
Proof.
  pose proof cleanup_tick_effect as Htick.
  destruct (Htick st) as (st' & Hrun & Hlook & Hreap & Hclock & _).
  exists st'. split; [done|]. split; [|split; [|split; [|split]]].
  - intros k s Hk Hold.
    assert (k ∈ stale_keys (idle_timeout_seconds st) (clock st) (key_order st)
                  (sessions st)) as Hin
      by (apply elem_of_stale_keys; eauto).
    split; [by rewrite Hlook, decide_True|].
    destruct (Hreap k s Hin Hk) as (t0 & Ht0 & Hend & Hin').
    destruct (terminate_process_later (process s) t0 (clock st') Hend) as [Hpid Hterm].
    pose proof (terminate_process_time (process s) t0).
    exists t0, (terminate_process (process s) t0).1.
    split; [lia|]. done.
  - intros k s Hk Hfresh. rewrite Hlook, decide_False; [done|].
    intros (s' & Hk' & Hold)%elem_of_stale_keys. rewrite Hk in Hk'. inversion Hk'; subst. lia.
  - intros k Hk. rewrite Hlook. by destruct (decide _).
  - done.
  - intros k s Hk Hold. simpl. munfold. simpl.
    set (st0 := set_clock (clock st + 1000 * cleanup_interval_seconds st) st).
    destruct (Htick st0) as (st0' & -> & Hlook0 & _). simpl.
    rewrite Hlook0, decide_True; [done|].
    apply elem_of_stale_keys. exists s. split; [done|]. simpl. lia.
Qed.

Lemma cleanup_tick_evicts_stale_witness :
  ∃ st', cleanup_tick two_idle = (Returned tt, st') ∧ sessions st' !! u1 = None.
Proof.
  destruct (cleanup_tick_evicts_stale two_idle) as (st' & Hrun & Hold & _).
  exists st'. split; [exact Hrun|].
  apply (Hold u1 {| session_key := u1; process := popen 1 (hello 1003000); last_used := 0 |});
    vm_compute; reflexivity.
Defined.

(** C7, as the claim has it, fails.  Sessions [u2] and [u1] have both been
    idle for 1000 s with a timeout of 900 s, and the scan marks both.  The
    reaper evicts [u2] first, whose process ignores SIGTERM for the whole
    grace period.  Meanwhile a request for [u1] is served and answered
    "hi", which renews [last_used]: the session is now as fresh as can be.
    The reaper then goes on through the list it made and evicts [u1] all
    the same, terminating its process. *)
Lemma reaper_evicts_refreshed_session :
  (scan_stale two_idle).1 = Returned [u2; u1] ∧
  ∃ st1 st2 st3 s,
    terminate_session u2 (scan_stale two_idle).2 = (Returned tt, st1) ∧
    ask stubborn_then_hello 1 u1 (lit "hi") 30 st1 = (Returned (lit "hi"), st2) ∧
    sessions st2 !! u1 = Some s ∧
    clock st2 - last_used s = 0 ∧
    ¬ (1000 * idle_timeout_seconds st2 < clock st2 - last_used s) ∧
    terminate_session u1 st2 = (Returned tt, st3) ∧
    sessions st3 !! u1 = None ∧
    EvSigTerm (pid (process s)) ∈ log st3.
Proof.
  split; [vm_compute; reflexivity|].
  eexists _, _, _, _.
  split; [vm_compute; reflexivity|].
  split; [vm_compute; reflexivity|].
  split; [vm_compute; reflexivity|].
  split; [vm_compute; reflexivity|].
  split; [vm_compute; discriminate|].
  split; [vm_compute; reflexivity|].
  split; [vm_compute; reflexivity|].
  vm_compute. apply list_elem_of_In. simpl. tauto.
Qed.

End ReaperFacts.

(** * The registry lock *)

Module LockFacts.

(** C3, where the code departs from it.  [_replace_session] on a key
    whose registered process is running and ignores SIGTERM sends SIGTERM,
    waits the whole grace period and sends SIGKILL between taking the
    registry lock and releasing it: the termination is not performed after
    the lock is released, and the lock is held for three seconds. *)
Theorem replace_terminates_under_lock :
  events_of (replace_session (always stubborn) u1) live_stubborn
    = [EvAcquire; EvSigTerm 0; EvWait 0 3000; EvSigKill 0; EvSpawn 1; EvRelease]
  ∧ termination_unlocked false
      (events_of (replace_session (always stubborn) u1) live_stubborn) = false
  ∧ blocked_under_lock false
      (events_of (replace_session (always stubborn) u1) live_stubborn) = grace.
Proof. repeat split; vm_compute; reflexivity. Qed.

End LockFacts.

(** * Facts about the bridge service *)

Module BridgeFacts.

Section Service.

Context {Payload : Type}.
Variable parse_event : Payload → exn + QQMessageEvent Payload.
Variable send_message : QQMessageEvent Payload → str → exn + Z * str.
Variable env : nat → option Child.
Variable fuel : nat.

(** C10.  When the parsed event has an empty [sender_id] or a [text] that
    is empty or all whitespace, [handle_incoming_event] answers with status
    "ignored" and leaves its world as it was: the Claude adapter is not
    touched and no call is made.  In every case, any [ask] the handler
    makes has a non-empty session key and a prompt that is not all
    whitespace. *)
Theorem handler_guards_ask (payload : Payload) (w : World Payload) :
  (∀ event,
     parse_event payload = inr event →
     sender_id event = [] ∨ strip (text event) = [] →
     ∃ response,
       handle_incoming_event parse_event send_message env fuel payload w
         = (Returned response, w) ∧
       response !! "status"%string = Some (PStr (lit "ignored")))
  ∧ (∀ key prompt,
       CallAsk key prompt ∈
         drop (length (trace w))
           (trace (handle_incoming_event parse_event send_message env fuel payload w).2) →
       key ≠ [] ∧ strip prompt ≠ []).
Proof.
  unfold handle_incoming_event. split.
  - intros event -> Hblank.
    destruct (is_self_message event); [by eexists|].
    assert (negb (truthy (sender_id event)) || negb (truthy (strip (text event))) = true)
      as ->.
    { destruct Hblank as [-> | ->]; [done|]. by rewrite orb_true_r. }
    by eexists.
  - intros key prompt.
    destruct (parse_event payload) as [e|event]; simpl.
    { rewrite drop_all. by intros ?%elem_of_nil. }
    destruct (is_self_message event); simpl.
    { rewrite drop_all. by intros ?%elem_of_nil. }
    destruct (sender_id event) as [|c k] eqn:Hk; simpl.
    { rewrite drop_all. by intros ?%elem_of_nil. }
    destruct (strip (text event)) as [|d p] eqn:Hp; simpl.
    { rewrite drop_all. by intros ?%elem_of_nil. }
    assert (∀ x, x ∈ [CallAsk (c :: k) (text event)] ∨
                 (∃ ev content, x = @CallSend Payload ev content) →
                 x = CallAsk key prompt → key ≠ [] ∧ strip prompt ≠ []) as Hone.
    { intros x [Hx%list_elem_of_singleton | (ev & content & ->)] Heq; [|discriminate].
      subst x. inversion Heq; subst. by rewrite Hp. }
    destruct (ask env fuel (c :: k) (text event) default_timeout_seconds (adapter w))
      as [[claude_response| |] st]; simpl.
    + assert (CallAsk key prompt ∈
                drop (length (trace w))
                  ((trace w ++ [CallAsk (c :: k) (text event)])
                     ++ [CallSend event claude_response]) →
              key ≠ [] ∧ strip prompt ≠ []) as Hsent.
      { rewrite <- app_assoc, drop_app_length.
        intros [Hin|Hin]%elem_of_app.
        - eapply Hone; [left; exact Hin|done].
        - apply list_elem_of_singleton in Hin. discriminate. }
      by destruct (send_message event claude_response)
        as [e|[status_code response_payload]].
    + rewrite drop_app_length. intros Hin. eapply Hone; [left; exact Hin|done].
    + rewrite drop_app_length. intros Hin. eapply Hone; [left; exact Hin|done].
Qed.

End Service.

Lemma handler_guards_ask_witness :
  ∃ response,
    handle_incoming_event parse_blank send_ok (always (hello 0)) 3 tt fresh_world
      = (Returned response, fresh_world) ∧
    response !! "status"%string = Some (PStr (lit "ignored")).
Proof.
  apply (proj1 (handler_guards_ask parse_blank send_ok (always (hello 0)) 3 tt fresh_world)
           blank_event); [reflexivity|].
  right. vm_compute. reflexivity.
Defined.

End BridgeFacts.

(** * More about the registry operations *)

Module RegistryEffects.

Import ProcessFacts AdapterFacts RegistryFacts AskFacts.

(** What [install_session] leaves behind, field by field. *)
Lemma install_session_effect env key st :
  clock (install_session env key st).2 = clock st ∧
  reaped (install_session env key st).2 = reaped st ∧
  spawned (install_session env key st).2 = S (spawned st) ∧
  match env (spawned st) with
  | Some c =>
    (install_session env key st).1 =
      Returned {| session_key := key; process := popen (spawned st) c;
                  last_used := clock st |} ∧
    sessions (install_session env key st).2 =
      <[key := {| session_key := key; process := popen (spawned st) c;
                  last_used := clock st |}]> (sessions st) ∧
    log (install_session env key st).2 = log st ++ [EvSpawn (spawned st)]
  | None =>
    (install_session env key st).1 = Raised OSError ∧
    sessions (install_session env key st).2 = sessions st ∧
    log (install_session env key st).2 = log st
  end.
Proof.
  rewrite install_session_run. by destruct (env (spawned st)).
Qed.

(** What [_get_or_create_session] leaves behind, field by field. *)
Lemma get_or_create_effect env key st :
  let r := get_or_create_session env key st in
  clock r.2 = clock st ∧
  match sessions st !! key with
  | Some s =>
    if exited (process s) (clock st) then
      reaped r.2 = reaped st ++ [process s] ∧ spawned r.2 = S (spawned st) ∧
      match env (spawned st) with
      | Some c =>
        r.1 = Returned {| session_key := key; process := popen (spawned st) c;
                          last_used := clock st |} ∧
        sessions r.2 = <[key := {| session_key := key; process := popen (spawned st) c;
                                   last_used := clock st |}]> (sessions st) ∧
        log r.2 = log st ++ [EvAcquire; EvSpawn (spawned st); EvRelease]
      | None =>
        r.1 = Raised OSError ∧ sessions r.2 = sessions st ∧
        log r.2 = log st ++ [EvAcquire; EvRelease]
      end
    else
      r.1 = Returned s ∧ sessions r.2 = sessions st ∧ reaped r.2 = reaped st ∧
      spawned r.2 = spawned st ∧ log r.2 = log st ++ [EvAcquire; EvRelease]
  | None =>
    reaped r.2 = reaped st ∧ spawned r.2 = S (spawned st) ∧
    match env (spawned st) with
    | Some c =>
      r.1 = Returned {| session_key := key; process := popen (spawned st) c;
                        last_used := clock st |} ∧
      sessions r.2 = <[key := {| session_key := key; process := popen (spawned st) c;
                                 last_used := clock st |}]> (sessions st) ∧
      log r.2 = log st ++ [EvAcquire; EvSpawn (spawned st); EvRelease]
    | None =>
      r.1 = Raised OSError ∧ sessions r.2 = sessions st ∧
      log r.2 = log st ++ [EvAcquire; EvRelease]
    end
  end.
Proof.
  unfold get_or_create_session, with_sessions_lock. munfold. simpl.
  destruct (sessions st !! key) as [s|] eqn:Hk.
  - destruct (exited (process s) (clock st)) eqn:Hex; simpl.
    + rewrite terminate_process_now_exited by done.
      rewrite install_session_run. simpl.
      destruct (env (spawned st)) as [c|]; simpl;
        rewrite ?app_nil_r, <- ?app_assoc; done.
    + rewrite <- app_assoc. done.
  - rewrite install_session_run. simpl.
    destruct (env (spawned st)) as [c|]; simpl; rewrite <- ?app_assoc; done.
Qed.

(** X3.  [_get_or_create_session] never signals a process and never
    waits on one: whatever the registry holds, between taking and releasing
    the registry lock it does at most one thing, spawn one process, so the
    lock is never held across a wait.  A session whose process is running
    is handed back as it is, with nothing spawned and the registry
    unchanged. *)
Theorem lookup_waits_on_no_process env key st :
  (events_of (get_or_create_session env key) st = [EvAcquire; EvRelease] ∨
   events_of (get_or_create_session env key) st
     = [EvAcquire; EvSpawn (spawned st); EvRelease]) ∧
  termination_unlocked false (events_of (get_or_create_session env key) st) = true ∧
  blocked_under_lock false (events_of (get_or_create_session env key) st) = 0 ∧
  (∀ s, sessions st !! key = Some s → exited (process s) (clock st) = false →
        (get_or_create_session env key st).1 = Returned s ∧
        sessions (get_or_create_session env key st).2 = sessions st ∧
        spawned (get_or_create_session env key st).2 = spawned st).
Proof.
  pose proof (get_or_create_effect env key st) as [Hc H]. simpl in H.
  assert (events_of (get_or_create_session env key) st = [EvAcquire; EvRelease] ∨
          events_of (get_or_create_session env key) st
            = [EvAcquire; EvSpawn (spawned st); EvRelease]) as Hev.
  { unfold events_of.
    destruct (sessions st !! key) as [s|];
      [destruct (exited (process s) (clock st))|];
      repeat match type of H with _ ∧ _ => destruct H as [? H] end;
      try destruct (env (spawned st));
      repeat match type of H with _ ∧ _ => destruct H as [? H] end;
      rewrite H, drop_app_length; auto. }
  split; [exact Hev|]. split; [|split].
  - by destruct Hev as [-> | ->].
  - by destruct Hev as [-> | ->].
  - intros s Hk Hex. rewrite Hk, Hex in H. tauto.
Qed.

Lemma lookup_waits_on_no_process_witness :
  (get_or_create_session (always stubborn) u1 live_stubborn).1
    = Returned {| session_key := u1; process := popen 0 stubborn; last_used := 0 |} ∧
  sessions (get_or_create_session (always stubborn) u1 live_stubborn).2
    = sessions live_stubborn ∧
  spawned (get_or_create_session (always stubborn) u1 live_stubborn).2
    = spawned live_stubborn.
Proof.
  apply (proj2 (proj2 (proj2 (lookup_waits_on_no_process (always stubborn) u1 live_stubborn))));
    vm_compute; reflexivity.
Defined.


Lemma termination_events_unlocked n sent ms rest :
  termination_unlocked false (termination_events n sent ms ++ rest)
    = termination_unlocked false rest ∧
  blocked_under_lock false (termination_events n sent ms ++ rest)
    = blocked_under_lock false rest.
Proof.
  unfold termination_events.
  destruct sent as [|[] [|? ?]]; simpl; split; try done; lia.
Qed.

(** X4.  [_terminate_session] holds the registry lock for the pop alone:
    whatever it does to the process (signals, wait) happens after the
    release, no time is spent waiting under the lock, and the key is gone
    from the registry when it returns.  An absent key is no error. *)
Theorem eviction_terminates_outside_lock key st :
  (terminate_session key st).1 = Returned tt ∧
  sessions (terminate_session key st).2 !! key = None ∧
  take 2 (events_of (terminate_session key) st) = [EvAcquire; EvRelease] ∧
  termination_unlocked false (events_of (terminate_session key) st) = true ∧
  blocked_under_lock false (events_of (terminate_session key) st) = 0.
Proof.
  unfold events_of, terminate_session, with_sessions_lock, terminate_process_now.
  munfold. simpl.
  destruct (sessions st !! key) as [s|]; simpl.
  - destruct (terminate_process (process s) (clock st)) as [p' t'] eqn:Ht. simpl.
    rewrite lookup_delete_eq.
    rewrite <- !app_assoc, drop_app_length. simpl.
    pose proof (termination_events_unlocked (pid (process s))
                  (drop (length (signals (process s))) (signals p'))
                  (t' - clock st) []) as [H1 H2].
    rewrite app_nil_r in H1, H2. rewrite H1, H2. done.
  - rewrite lookup_delete_eq, <- app_assoc, drop_app_length. done.
Qed.

(** What [_replace_session] leaves behind when the spawn succeeds. *)
Lemma replace_effect env key st c :
  env (spawned st) = Some c →
  let t := match sessions st !! key with
           | Some s => (terminate_process (process s) (clock st)).2
           | None => clock st
           end in
  let fresh := {| session_key := key; process := popen (spawned st) c; last_used := t |} in
  (replace_session env key st).1 = Returned fresh ∧
  sessions (replace_session env key st).2 = <[key := fresh]> (sessions st) ∧
  clock (replace_session env key st).2 = t ∧
  spawned (replace_session env key st).2 = S (spawned st) ∧
  reaped (replace_session env key st).2 =
    reaped st ++ match sessions st !! key with
                 | Some s => [(terminate_process (process s) (clock st)).1]
                 | None => []
                 end.
Proof.
  intros Henv. unfold replace_session, with_sessions_lock. munfold. simpl.
  destruct (sessions st !! key) as [s|]; simpl.
  - unfold terminate_process_now. simpl.
    destruct (terminate_process (process s) (clock st)) as [p' t']. simpl.
    unfold put_session. munfold.
    rewrite install_session_run. simpl. rewrite Henv. simpl.
    by rewrite insert_insert_eq.
  - rewrite install_session_run. simpl. rewrite Henv. simpl.
    by rewrite app_nil_r.
Qed.

(** What [_replace_session] leaves behind when the spawn fails. *)
Lemma replace_failure env key st :
  env (spawned st) = None →
  ∃ st',
    replace_session env key st = (Raised OSError, st') ∧
    spawned st' = S (spawned st) ∧
    match sessions st !! key with
    | Some old =>
      sessions st' =
        <[key := touched old (terminate_process (process old) (clock st)).1
                   (last_used old)]> (sessions st) ∧
      clock st' = (terminate_process (process old) (clock st)).2 ∧
      reaped st' = reaped st ++ [(terminate_process (process old) (clock st)).1]
    | None => sessions st' = sessions st ∧ clock st' = clock st ∧ reaped st' = reaped st
    end.
Proof.
  intros Henv. unfold replace_session, with_sessions_lock. munfold. simpl.
  destruct (sessions st !! key) as [s|]; simpl.
  - unfold terminate_process_now. simpl.
    destruct (terminate_process (process s) (clock st)) as [p' t']. simpl.
    unfold put_session. munfold.
    rewrite install_session_run. simpl. rewrite Henv. simpl.
    eexists. split; [done|]. simpl. done.
  - rewrite install_session_run. simpl. rewrite Henv. simpl.
    eexists. split; [done|]. simpl. done.
Qed.

(** X12.  When the command can be started, [_replace_session] installs a
    process it has just spawned, whether the registered one was running or
    not: the session it returns is the one registered, and its process is
    the newest.  [_terminate_process] is called first on the process it
    displaces: when the call returns that process is gone, or it outlived
    SIGTERM and the grace period, was sent SIGKILL and goes within its kill
    latency.  The call takes no longer than the grace period.  When the
    command cannot be started, [OSError] leaves the call after the
    termination: the old session stays registered, with its process as
    [_terminate_process] left it. *)
Theorem replace_installs_fresh_process env key st :
  (∀ c, env (spawned st) = Some c →
   ∃ fresh st',
     replace_session env key st = (Returned fresh, st') ∧
     sessions st' !! key = Some fresh ∧
     session_key fresh = key ∧
     pid (process fresh) = spawned st ∧
     spawned st' = S (spawned st) ∧
     last_used fresh = clock st' ∧
     clock st ≤ clock st' ≤ clock st + grace ∧
     (∀ old, sessions st !! key = Some old →
        clock st' = (terminate_process (process old) (clock st)).2 ∧
        (terminate_process (process old) (clock st)).1 ∈ reaped st' ∧
        pid (terminate_process (process old) (clock st)).1 = pid (process old) ∧
        terminated (terminate_process (process old) (clock st)).1 (clock st')))
  ∧ (env (spawned st) = None →
     ∃ st',
       replace_session env key st = (Raised OSError, st') ∧
       (∀ old, sessions st !! key = Some old →
          sessions st' !! key =
            Some (touched old (terminate_process (process old) (clock st)).1
                    (last_used old)) ∧
          clock st' = (terminate_process (process old) (clock st)).2 ∧
          terminated (terminate_process (process old) (clock st)).1 (clock st')) ∧
       (sessions st !! key = None → sessions st' = sessions st)).
Proof.
  split.
  - intros c Henv.
    pose proof (replace_effect env key st c Henv) as (Hr & Hs & Hc & Hsp & Hre).
    destruct (replace_session env key st) as [r st'] eqn:Hrun. simpl in *.
    eexists _, st'. split; [by rewrite Hr|].
    rewrite Hs, lookup_insert_eq, Hc, Hsp, Hre. simpl.
    split; [done|]. split; [done|]. split; [done|]. split; [done|]. split; [done|].
    split.
    + destruct (sessions st !! key) as [s|]; [|unfold grace; lia].
      apply terminate_process_time.
    + intros old Hold. rewrite Hold.
      split; [done|].
      split; [apply elem_of_app; right; by apply list_elem_of_singleton|].
      split; [apply terminate_process_pid|apply terminate_process_terminated].
  - intros Henv. destruct (replace_failure env key st Henv) as (st' & Hrun & _ & Hst).
    exists st'. split; [done|]. split.
    + intros old Hold. rewrite Hold in Hst. destruct Hst as (-> & -> & _).
      rewrite lookup_insert_eq. split; [done|]. split; [done|].
      apply terminate_process_terminated.
    + intros Hnone. rewrite Hnone in Hst. tauto.
Qed.

Lemma replace_installs_fresh_process_witness :
  ∃ fresh st',
    replace_session (always stubborn) u1 live_stubborn = (Returned fresh, st') ∧
    sessions st' !! u1 = Some fresh ∧
    session_key fresh = u1 ∧
    pid (process fresh) = spawned live_stubborn ∧
    spawned st' = S (spawned live_stubborn) ∧
    last_used fresh = clock st' ∧
    clock live_stubborn ≤ clock st' ≤ clock live_stubborn + grace ∧
    (∀ old, sessions live_stubborn !! u1 = Some old →
       clock st' = (terminate_process (process old) (clock live_stubborn)).2 ∧
       (terminate_process (process old) (clock live_stubborn)).1 ∈ reaped st' ∧
       pid (terminate_process (process old) (clock live_stubborn)).1 = pid (process old) ∧
       terminated (terminate_process (process old) (clock live_stubborn)).1 (clock st')).
Proof.
  apply (proj1 (replace_installs_fresh_process (always stubborn) u1 live_stubborn) stubborn).
  reflexivity.
Defined.

End RegistryEffects.

(** * More about the coordinator *)

Module AskEffects.

Import PipeFacts ReaderFacts ReaderClaims ProcessFacts AdapterFacts RegistryFacts AskFacts
  RegistryEffects.

Lemma events_of_run {A} (m : M A) st r st' :
  m st = (r, st') → events_of m st = drop (length (log st)) (log st').
Proof. unfold events_of. by intros ->. Qed.

(** The instant at which the reader returns. *)
Lemma read_response_time timeout_seconds eof now out output t out' why :
  read_response timeout_seconds eof now out = Some (output, t, out', why) →
  now ≤ t ∧
  (t = now ∨ t < now + 1000 * timeout_seconds + min_remaining + quiet_window + quiet_poll).
Proof.
  unfold read_response.
  destruct (read_loop _ _ _ _ _ _) as [[[[chunks t0] out0] why0]|] eqn:Hr; [|done].
  intros H. inversion H; subst.
  pose proof (read_loop_bound _ _ _ _ _ _ _ _ _ _ Hr).
  apply read_loop_spec in Hr as (? & _). done.
Qed.

Lemma stdin_write_fields p now line p1 :
  stdin_write p now line = Some p1 →
  pid p1 = pid p ∧ stdin_log p1 = stdin_log p ++ [line] ∧ signals p1 = signals p ∧
  stdout p1 = stdout p ∧ stdout_eof p1 = stdout_eof p ∧ exits_at p1 = exits_at p.
Proof.
  unfold stdin_write. destruct (_ || _); [done|]. intros H. by inversion H.
Qed.

(** One iteration of [ask] on a session whose process takes the prompt. *)
Lemma ask_served env fuel key prompt timeout_seconds st session st1 p1 :
  get_or_create_session env key st = (Returned session, st1) →
  exited (process session) (clock st1) = false →
  stdin_write (process session) (clock st1) (prompt ++ [10%N]) = Some p1 →
  ∃ output t out' why st',
    read_response timeout_seconds (stdout_eof p1) (clock st1) (stdout p1)
      = Some (output, t, out', why) ∧
    ask env (S fuel) key prompt timeout_seconds st
      = (Returned (strip_or_placeholder output), st') ∧
    sessions st' !! key = Some (touched session (with_stdout p1 out') t) ∧
    clock st' = t ∧ spawned st' = spawned st1 ∧ reaped st' = reaped st1 ∧
    log st' = log st1 ++ [EvWrite (pid p1)].
Proof.
  intros Hg Hex Hw. rewrite (ask_iteration _ _ _ _ _ _ _ _ Hg), Hex, Hw.
  destruct (read_response_some timeout_seconds (stdout_eof p1) (clock st1) (stdout p1))
    as (output & t & out' & why & Hr).
  rewrite Hr. eexists output, t, out', why, _. split; [done|]. split; [done|].
  simpl. by rewrite lookup_insert_eq.
Qed.

(** X2.  A request on a key whose process is running and reads its stdin
    reuses that process: nothing is spawned, signalled or replaced.  The
    child receives exactly one more line, the prompt followed by a newline.
    When [ask] returns, the session is still registered under the key with
    the same process and [last_used] is the instant of the return, which is
    not before the call and less than the timeout plus 0.75 s after it. *)
Theorem request_reuses_live_session env fuel key prompt timeout_seconds st s p1 :
  sessions st !! key = Some s →
  exited (process s) (clock st) = false →
  stdin_write (process s) (clock st) (prompt ++ [10%N]) = Some p1 →
  0 ≤ timeout_seconds →
  ∃ text st' s',
    ask env (S fuel) key prompt timeout_seconds st = (Returned text, st') ∧
    sessions st' !! key = Some s' ∧
    session_key s' = session_key s ∧
    pid (process s') = pid (process s) ∧
    stdin_log (process s') = stdin_log (process s) ++ [prompt ++ [10%N]] ∧
    signals (process s') = signals (process s) ∧
    last_used s' = clock st' ∧
    spawned st' = spawned st ∧ reaped st' = reaped st ∧
    clock st ≤ clock st' <
      clock st + 1000 * timeout_seconds + min_remaining + quiet_window + quiet_poll.
Proof.
  intros Hk Hex Hw HT.
  pose proof (get_or_create_effect env key st) as [Hc H]. simpl in H.
  rewrite Hk, Hex in H. destruct H as (Hr & Hs & Hre & Hsp & Hl).
  destruct (get_or_create_session env key st) as [r st1] eqn:Hg. simpl in *. subst r.
  rewrite <- Hc in Hex, Hw.
  destruct (ask_served env fuel key prompt timeout_seconds st s st1 p1 Hg Hex Hw)
    as (output & t & out' & why & st' & Hread & Hask & Hk' & Hc' & Hsp' & Hre' & Hl').
  apply read_response_time in Hread as [Ht1 Ht2].
  apply stdin_write_fields in Hw as (Hpid & Hlog & Hsig & _).
  exists (strip_or_placeholder output), st', (touched s (with_stdout p1 out') t).
  split; [done|]. split; [done|]. simpl.
  rewrite Hpid, Hlog, Hsig, Hc', Hsp', Hre', Hsp, Hre.
  repeat split; try done; try lia.
  unfold min_remaining, quiet_window, quiet_poll in *. lia.
Qed.

Lemma request_reuses_live_session_witness :
  ∃ text st' s',
    ask (always stubborn) 1 u1 (lit "hi") 1 live_stubborn = (Returned text, st') ∧
    sessions st' !! u1 = Some s' ∧
    session_key s' = u1 ∧
    pid (process s') = 0%nat ∧
    stdin_log (process s') = [] ++ [lit "hi" ++ [10%N]] ∧
    signals (process s') = [] ∧
    last_used s' = clock st' ∧
    spawned st' = spawned live_stubborn ∧ reaped st' = reaped live_stubborn ∧
    clock live_stubborn ≤ clock st' <
      clock live_stubborn + 1000 * 1 + min_remaining + quiet_window + quiet_poll.
Proof.
  apply (request_reuses_live_session (always stubborn) 0 u1 (lit "hi") 1 live_stubborn
           {| session_key := u1; process := popen 0 stubborn; last_used := 0 |}
           (default (popen 0 stubborn) (stdin_write (popen 0 stubborn) 0 (lit "hi" ++ [10%N]))));
    [vm_compute; reflexivity..|lia].
Defined.

(** X1.  Crash recovery.  When the process registered for a key has
    exited and the next process can be started, runs and reads its stdin,
    [ask] recovers in the same call: it spawns exactly one replacement,
    registers it under the key, sends it the prompt and returns a text.  The
    caller sees no error, and the dead process is never signalled. *)
Theorem ask_recovers_from_dead_process env fuel key prompt timeout_seconds st s c p1 :
  sessions st !! key = Some s →
  exited (process s) (clock st) = true →
  env (spawned st) = Some c →
  exited (popen (spawned st) c) (clock st) = false →
  stdin_write (popen (spawned st) c) (clock st) (prompt ++ [10%N]) = Some p1 →
  ∃ text st' s',
    ask env (S fuel) key prompt timeout_seconds st = (Returned text, st') ∧
    spawned st' = S (spawned st) ∧
    sessions st' !! key = Some s' ∧
    session_key s' = key ∧
    pid (process s') = spawned st ∧
    stdin_log (process s') = [prompt ++ [10%N]] ∧
    reaped st' = reaped st ++ [process s] ∧
    (∀ n, (EvSigTerm n ∉ events_of (ask env (S fuel) key prompt timeout_seconds) st) ∧
          (EvSigKill n ∉ events_of (ask env (S fuel) key prompt timeout_seconds) st)).
Proof.
  intros Hk Hex Henv Halive Hw.
  pose proof (get_or_create_effect env key st) as [Hc H]. simpl in H.
  rewrite Hk, Hex, Henv in H. destruct H as (Hre & Hsp & Hr & Hs & Hl).
  destruct (get_or_create_session env key st) as [r st1] eqn:Hg. simpl in *. subst r.
  rewrite <- Hc in Halive, Hw.
  match type of Hg with _ = (Returned ?x, _) => set (fresh := x) in * end.
  destruct (ask_served env fuel key prompt timeout_seconds st fresh st1 p1 Hg Halive Hw)
    as (output & t & out' & why & st' & Hread & Hask & Hk' & Hc' & Hsp' & Hre' & Hl').
  apply stdin_write_fields in Hw as (Hpid & Hlog & _).
  assert (∀ n, (EvSigTerm n ∉ events_of (ask env (S fuel) key prompt timeout_seconds) st) ∧
               (EvSigKill n ∉ events_of (ask env (S fuel) key prompt timeout_seconds) st))
    as Hquiet.
  { intros n. rewrite (events_of_run _ _ _ _ Hask).
    rewrite Hl', Hl, <- app_assoc, drop_app_length. simpl.
    split; intros Hin; apply list_elem_of_In in Hin; simpl in Hin;
      repeat destruct Hin as [Hin|Hin]; try discriminate; done. }
  exists (strip_or_placeholder output), st', (touched fresh (with_stdout p1 out') t).
  split; [done|]. split; [by rewrite Hsp'|]. split; [done|].
  split; [done|]. split; [done|]. split; [simpl; by rewrite Hlog|].
  split; [by rewrite Hre'|]. exact Hquiet.
Qed.


Lemma ask_recovers_from_dead_process_witness :
  ∃ text st' s',
    ask short_then_hello 1 u1 (lit "hi") 30 crashed = (Returned text, st') ∧
    spawned st' = S (spawned crashed) ∧
    sessions st' !! u1 = Some s' ∧
    session_key s' = u1 ∧
    pid (process s') = spawned crashed ∧
    stdin_log (process s') = [lit "hi" ++ [10%N]] ∧
    reaped st' = reaped crashed ++ [popen 0 short_lived] ∧
    (∀ n, (EvSigTerm n ∉ events_of (ask short_then_hello 1 u1 (lit "hi") 30) crashed) ∧
          (EvSigKill n ∉ events_of (ask short_then_hello 1 u1 (lit "hi") 30) crashed)).
Proof.
  apply (ask_recovers_from_dead_process short_then_hello 0 u1 (lit "hi") 30 crashed
           {| session_key := u1; process := popen 0 short_lived; last_used := 0 |}
           (hello 1000)
           (default (popen 1 (hello 1000))
              (stdin_write (popen 1 (hello 1000)) 1000 (lit "hi" ++ [10%N]))));
    vm_compute; reflexivity.
Defined.

(** X7.  A spawn failure is not retried and not hidden.  When [ask] needs
    a process (the key is new, or its process has exited) and the command
    cannot be started, [OSError] leaves [ask] after that one attempt, and
    the registry is as it was: a new key stays unregistered, a dead session
    stays in place. *)
Theorem spawn_failure_propagates env fuel key prompt timeout_seconds st :
  (sessions st !! key = None ∨
   ∃ s, sessions st !! key = Some s ∧ exited (process s) (clock st) = true) →
  env (spawned st) = None →
  ∃ st',
    ask env (S fuel) key prompt timeout_seconds st = (Raised OSError, st') ∧
    sessions st' = sessions st ∧
    spawned st' = S (spawned st) ∧
    clock st' = clock st.
Proof.
  intros Hk Henv.
  pose proof (get_or_create_effect env key st) as [Hc H]. simpl in H.
  rewrite ask_S. munfold.
  destruct (get_or_create_session env key st) as [r st1]. simpl in *.
  destruct Hk as [Hk | (s & Hk & Hex)].
  - rewrite Hk, Henv in H. destruct H as (_ & Hsp & -> & Hs & _). by exists st1.
  - rewrite Hk, Hex, Henv in H. destruct H as (_ & Hsp & -> & Hs & _). by exists st1.
Qed.

Lemma spawn_failure_propagates_witness :
  ∃ st',
    ask no_command 1 u1 (lit "hi") 30 (init 900 30 0) = (Raised OSError, st') ∧
    sessions st' = sessions (init 900 30 0) ∧
    spawned st' = S (spawned (init 900 30 0)) ∧
    clock st' = clock (init 900 30 0).
Proof.
  apply (spawn_failure_propagates no_command 0 u1 (lit "hi") 30 (init 900 30 0));
    [left|]; reflexivity.
Defined.

(** A reader left alone with an open, silent pipe waits for the deadline. *)
Lemma read_loop_silent deadline : ∀ k t,
  (Z.to_nat (deadline - t) ≤ k)%nat →
  ∃ fuel t',
    read_loop fuel deadline None [] t [] = Some ([], t', [], StopDeadline) ∧
    t ≤ t' ∧ deadline ≤ t' ∧ (t' = t ∨ t' < deadline + min_remaining).
Proof.
  induction k as [|k IH]; intros t Hk.
  - exists 1%nat, t. rewrite read_loop_S.
    destruct (Z.ltb_spec t deadline); [lia|]. split; [done|]. split; [lia|]. split; [lia|by left].
  - destruct (Z.ltb_spec t deadline) as [Hlt|Hge].
    + set (d := Z.min outer_poll (Z.max min_remaining (deadline - t))).
      assert (0 < d ∧ t + d < deadline + min_remaining) as [Hd1 Hd2]
        by (unfold d, outer_poll, min_remaining; lia).
      destruct (IH (t + d)) as (fuel & t' & Hrun & Ht & Hdl & Hb); [lia|].
      exists (S fuel), t'. rewrite read_loop_S.
      destruct (Z.ltb_spec t deadline); [|lia].
      change (select t d [] None) with (false, t + d). cbv iota beta.
      split; [exact Hrun|]. split; [lia|]. split; [done|]. right. lia.
    + exists 1%nat, t. rewrite read_loop_S.
      destruct (Z.ltb_spec t deadline); [lia|]. split; [done|]. split; [lia|].
      split; [lia|by left].
Qed.

(** X8.  A process that runs, takes the prompt and then says nothing
    does not make [ask] fail or hang: the reader gives up when the timeout
    has passed, at most 50 ms late, and [ask] returns the placeholder
    "(no response)" with the session still registered on that process. *)
Theorem silent_process_times_out env fuel key prompt timeout_seconds st s p1 :
  sessions st !! key = Some s →
  exited (process s) (clock st) = false →
  stdin_write (process s) (clock st) (prompt ++ [10%N]) = Some p1 →
  stdout (process s) = [] → stdout_eof (process s) = None →
  0 < timeout_seconds →
  ∃ st',
    ask env (S fuel) key prompt timeout_seconds st = (Returned (lit "(no response)"), st') ∧
    clock st + 1000 * timeout_seconds ≤ clock st'
      < clock st + 1000 * timeout_seconds + min_remaining ∧
    (pid ∘ process <$> sessions st' !! key) = Some (pid (process s)).
Proof.
  intros Hk Hex Hw Hout Heof HT.
  pose proof (get_or_create_effect env key st) as [Hc H]. simpl in H.
  rewrite Hk, Hex in H. destruct H as (Hr & Hs & Hre & Hsp & Hl).
  destruct (get_or_create_session env key st) as [r st1] eqn:Hg. simpl in *. subst r.
  rewrite <- Hc in Hex, Hw.
  destruct (ask_served env fuel key prompt timeout_seconds st s st1 p1 Hg Hex Hw)
    as (output & t & out' & why & st' & Hread & Hask & Hk' & Hc' & _).
  apply stdin_write_fields in Hw as (Hpid & _ & _ & Ho & He & _).
  rewrite Ho, He, Hout, Heof, Hc in Hread.
  destruct (read_loop_silent (clock st + 1000 * timeout_seconds)
              (Z.to_nat (clock st + 1000 * timeout_seconds - clock st)) (clock st))
    as (fuel' & t' & Hrun & Ht1 & Ht2 & Ht3); [lia|].
  apply read_response_of_loop in Hrun. rewrite Hread in Hrun.
  inversion Hrun; subst.
  exists st'. split; [exact Hask|]. split; [lia|].
  rewrite Hk'. simpl. by rewrite Hpid.
Qed.

Lemma silent_process_times_out_witness :
  ∃ st',
    ask (always stubborn) 1 u1 (lit "hi") 1 live_stubborn
      = (Returned (lit "(no response)"), st') ∧
    clock live_stubborn + 1000 * 1 ≤ clock st'
      < clock live_stubborn + 1000 * 1 + min_remaining ∧
    (pid ∘ process <$> sessions st' !! u1) = Some 0%nat.
Proof.
  apply (silent_process_times_out (always stubborn) 0 u1 (lit "hi") 1 live_stubborn
           {| session_key := u1; process := popen 0 stubborn; last_used := 0 |}
           (default (popen 0 stubborn) (stdin_write (popen 0 stubborn) 0 (lit "hi" ++ [10%N]))));
    [vm_compute; reflexivity..|lia].
Defined.

End AskEffects.

(** * More about the reaper and shutdown *)

Module ShutdownFacts.

Import ProcessFacts AdapterFacts RegistryFacts ReaperFacts.




(** The reaper only ever removes: what it leaves is what was there. *)
Lemma cleanup_worker_effect ticks : ∀ st,
  ∃ st', cleanup_worker ticks st = (Returned tt, st') ∧
    spawned st' = spawned st ∧
    idle_timeout_seconds st' = idle_timeout_seconds st ∧
    cleanup_interval_seconds st' = cleanup_interval_seconds st ∧
    clock st + 1000 * cleanup_interval_seconds st * Z.of_nat ticks ≤ clock st' ∧
    (∀ k s, sessions st' !! k = Some s → sessions st !! k = Some s).
Proof.
  induction ticks as [|ticks IH]; intros st.
  - exists st. split; [done|]. repeat split; try done. lia.
  - simpl. munfold. simpl.
    set (st0 := set_clock (clock st + 1000 * cleanup_interval_seconds st) st).
    destruct (cleanup_tick_effect st0) as (st1 & -> & Hlook & _ & Hc & Hi & Hiv & Hsp).
    destruct (IH st1) as (st2 & -> & Hsp2 & Hi2 & Hiv2 & Hc2 & Hsub).
    exists st2. split; [done|]. rewrite Hsp2, Hi2, Hiv2, Hsp, Hi, Hiv. simpl in *.
    repeat split; try done.
    + rewrite Hiv in Hc2. lia.
    + intros k s Hk. apply Hsub in Hk. rewrite Hlook in Hk.
      by destruct (decide _).
Qed.

Lemma cleanup_worker_S ticks st :
  cleanup_worker (S ticks) st =
  match cleanup_tick (set_clock (clock st + 1000 * cleanup_interval_seconds st) st) with
  | (Returned _, st1) => cleanup_worker ticks st1
  | (Raised e, st1) => (Raised e, st1)
  | (Diverged, st1) => (Diverged, st1)
  end.
Proof. reflexivity. Qed.

(** X6.  The reaper never spawns a process, never raises and never adds
    a session.  A session that nobody uses again does not stay for ever:
    once its idle timeout lies before the end of the reaper's [n]-th wait,
    [n] ticks have removed it. *)
Theorem idle_session_is_eventually_evicted ticks st k s :
  sessions st !! k = Some s →
  0 ≤ cleanup_interval_seconds st →
  last_used s + 1000 * idle_timeout_seconds st
    < clock st + 1000 * cleanup_interval_seconds st * Z.of_nat (S ticks) →
  ∃ st',
    cleanup_worker (S ticks) st = (Returned tt, st') ∧
    sessions st' !! k = None ∧
    spawned st' = spawned st ∧
    (∀ k' s', sessions st' !! k' = Some s' → sessions st !! k' = Some s').
Proof.
  intros Hk Hiv Hold.
  destruct (cleanup_worker_effect (S ticks) st) as (st' & Hrun & Hsp & _ & _ & _ & Hsub).
  exists st'. split; [done|]. split; [|by split].
  clear Hsp Hsub. revert st st' Hk Hiv Hold Hrun.
  induction ticks as [|ticks IH]; intros st st' Hk Hiv Hold Hrun.
  - rewrite cleanup_worker_S in Hrun.
    set (st0 := set_clock (clock st + 1000 * cleanup_interval_seconds st) st) in *.
    destruct (cleanup_tick_effect st0) as (st1 & Ht & Hlook & _).
    rewrite Ht in Hrun. simpl in Hrun. inversion Hrun; subst st1.
    rewrite Hlook, decide_True; [done|].
    apply elem_of_stale_keys. exists s. split; [done|]. simpl. lia.
  - rewrite cleanup_worker_S in Hrun.
    set (st0 := set_clock (clock st + 1000 * cleanup_interval_seconds st) st) in *.
    destruct (cleanup_tick_effect st0) as (st1 & Ht & Hlook & _ & Hc & Hi & Hiv1 & _).
    rewrite Ht in Hrun.
    destruct (sessions st1 !! k) as [s1|] eqn:Hk1.
    + rewrite Hlook in Hk1. destruct (decide _) as [|Hns]; [done|].
      simpl in Hk1. rewrite Hk in Hk1. inversion Hk1; subst s1.
      apply (IH st1 st'); try done.
      * rewrite Hlook, decide_False by done. done.
      * simpl in *. lia.
      * simpl in *. rewrite Hi, Hiv1. lia.
    + destruct (cleanup_worker_effect (S ticks) st1) as (st2 & Hrun2 & _ & _ & _ & _ & Hsub2).
      rewrite Hrun2 in Hrun. inversion Hrun; subst st2.
      destruct (sessions st' !! k) as [s'|] eqn:Hk'; [|done].
      apply Hsub2 in Hk'. congruence.
Qed.

Lemma idle_session_is_eventually_evicted_witness :
  ∃ st',
    cleanup_worker 31 live_stubborn = (Returned tt, st') ∧
    sessions st' !! u1 = None ∧
    spawned st' = spawned live_stubborn ∧
    (∀ k' s', sessions st' !! k' = Some s' → sessions live_stubborn !! k' = Some s').
Proof.
  apply (idle_session_is_eventually_evicted 30 live_stubborn u1
           {| session_key := u1; process := popen 0 stubborn; last_used := 0 |});
    [vm_compute; reflexivity | vm_compute; discriminate | vm_compute; reflexivity].
Defined.

End ShutdownFacts.

(** * More about the bridge service *)

Module BridgeRouting.

Import StripFacts.

Lemma lstrip_blank s : Forall (λ c, isspace c = true) s → lstrip s = [].
Proof. induction 1 as [|c s Hc _ IH]; simpl; [done|]. by rewrite Hc. Qed.

(** [text.strip()] is empty exactly when the text is all whitespace. *)
Lemma strip_blank_iff s : strip s = [] ↔ Forall (λ c, isspace c = true) s.
Proof.
  split.
  - intros Hs. destruct (strip_spec s) as ((l & r & Heq & Hl & Hr) & _).
    rewrite Hs in Heq. rewrite Heq. simpl. by apply Forall_app.
  - intros Hall. unfold strip. rewrite (lstrip_blank s Hall). reflexivity.
Qed.


Section Service.

Context {Payload : Type}.
Variable parse_event : Payload → exn + QQMessageEvent Payload.
Variable send_message : QQMessageEvent Payload → str → exn + Z * str.
Variable env : nat → option Child.
Variable fuel : nat.


(** X10.  The two ways of being ignored.  The bot's own messages are
    ignored with reason "self_message" before anything else is looked at,
    even when sender and text would be fine.  Any other event without a
    sender, or with a text that is empty or all whitespace, is ignored with
    reason "empty_sender_or_text".  Both responses repeat the event id,
    and neither touches the adapter or sends anything. *)
Theorem handler_ignore_reasons (payload : Payload) (w : World Payload) event :
  parse_event payload = inr event →
  is_self_message event = true ∨ sender_id event = [] ∨
    Forall (λ c, isspace c = true) (text event) →
  ∃ response,
    handle_incoming_event parse_event send_message env fuel payload w
      = (Returned response, w) ∧
    response !! "status"%string = Some (PStr (lit "ignored")) ∧
    response !! "event_id"%string = Some (PStr (event_id event)) ∧
    response !! "reason"%string =
      Some (PStr (lit (if is_self_message event then "self_message"
                       else "empty_sender_or_text"))).
Proof.
  intros Hp Hwhy. unfold handle_incoming_event. rewrite Hp.
  destruct (is_self_message event) eqn:Hself; [by eexists|].
  destruct Hwhy as [?|[Hk|Hblank]]; [done| |].
  - rewrite Hk. simpl. by eexists.
  - apply strip_blank_iff in Hblank. rewrite Hblank, orb_true_r. by eexists.
Qed.

End Service.


Lemma handler_ignore_reasons_witness :
  ∃ response,
    handle_incoming_event parse_self send_ok (always (hello 0)) 1 tt fresh_world
      = (Returned response, fresh_world) ∧
    response !! "status"%string = Some (PStr (lit "ignored")) ∧
    response !! "event_id"%string = Some (PStr (lit "evt-1")) ∧
    response !! "reason"%string = Some (PStr (lit "self_message")).
Proof.
  apply (handler_ignore_reasons parse_self send_ok (always (hello 0)) 1 tt fresh_world
           self_event eq_refl).
  left. reflexivity.
Defined.

End BridgeRouting.

(** * More about the reader *)

Module ReaderGap.

Import PipeFacts ReaderFacts.

Lemma quiet_loop_nonempty fuel qd eof : ∀ chunks t out chunks' t' out' ex,
  quiet_loop fuel qd eof chunks t out = Some (chunks', t', out', ex) →
  chunks ≠ [] → chunks' ≠ [].
Proof.
  intros chunks t out chunks' t' out' ex H Hne.
  apply quiet_loop_spec in H as (_ & (pieces & consumed & -> & _) & _).
  by destruct chunks.
Qed.

Lemma read_loop_gap fuel deadline eof : ∀ chunks t out chunks' t' out',
  read_loop fuel deadline eof chunks t out = Some (chunks', t', out', StopGap) →
  chunks' ≠ [] ∧
  match out' with
  | (a, _) :: _ => t' ≤ a
  | [] => match eof with Some e => t' ≤ e | None => True end
  end.
Proof.
  induction fuel as [|fuel IH]; intros chunks t out chunks' t' out' H; [discriminate|].
  rewrite read_loop_S in H.
  destruct (t <? deadline); [|discriminate].
  destruct (select _ _ out eof) as [ready t1] eqn:Hs.
  destruct ready.
  - destruct (os_read t1 read_size out) as [[|b raw] out1]; [discriminate|].
    destruct (quiet_loop _ _ _ _ _ _) as [[[[chunks2 t2] out2] ex]|]; [|discriminate].
    by apply IH in H.
  - destruct chunks as [|c chunks]; [by apply IH in H|].
    inversion H; subst. split; [done|]. by apply select_idle_nothing in Hs.
Qed.

(** X11.  When [_read_response] stops because the stream went quiet, it
    has collected something, and it leaves nothing behind that it could
    have read earlier: no byte still in the pipe arrived before the instant
    it stopped, and the stream was not closed before that instant.  The
    text is the decoding, piece by piece, of exactly the bytes taken from
    the front of the pipe. *)
Theorem quiet_stop_leaves_nothing_readable timeout_seconds eof now out text t' out' :
  read_response timeout_seconds eof now out = Some (text, t', out', StopGap) →
  (∃ pieces consumed,
     pieces ≠ [] ∧ text = join (map decode pieces) ∧
     out = consumed ++ out' ∧ consumed.*2 = concat pieces) ∧
  match out' with
  | (a, _) :: _ => t' ≤ a
  | [] => match eof with Some e => t' ≤ e | None => True end
  end.
Proof.
  unfold read_response.
  destruct (read_loop _ _ _ _ _ _) as [[[[chunks t0] out0] why0]|] eqn:Hr; [|done].
  intros H. inversion H; subst.
  pose proof (read_loop_gap _ _ _ _ _ _ _ _ _ Hr) as [Hne Hleft].
  apply read_loop_spec in Hr as (_ & (pieces & consumed & Hc & Ho & Hb) & _).
  simpl in Hc. subst chunks.
  split; [|done].
  exists pieces, consumed. split; [by destruct pieces|done].
Qed.

Lemma quiet_stop_leaves_nothing_readable_witness :
  (∃ pieces consumed,
     pieces ≠ [] ∧ lit "ABCD" = join (map decode pieces) ∧
     ab_then_cd 0 = consumed ++ [] ∧ consumed.*2 = concat pieces) ∧
  True.
Proof.
  apply (quiet_stop_leaves_nothing_readable 30 None 0 (ab_then_cd 0) (lit "ABCD") 850 []).
  vm_compute. reflexivity.
Defined.

End ReaderGap.
